(** * The base32z codec of oxen-encoding ([oxenc/base32z.h])

    A shallow embedding of the header: the alphabet tables, the two size
    functions, the validator [is_base32z], the encoder and decoder
    iterators and the whole-sequence wrappers [to_base32z] and
    [from_base32z], followed by the properties the specification
    states about them.

    Conventions of the embedding.
    - A [char], [unsigned char] or [std::byte] is a [byte]; an iterator
      range [begin, end) over them is the [list byte] of the elements
      not yet passed, so [it != end] is "the list is not empty", [*it]
      is its head and [++it] its tail.
    - Integer registers are [Z] with the wrap-around of their C++ type
      written out.  The target is the LP64 data model: [size_t] and
      [uint_fast16_t] are 64 bits wide, [int] is 32 bits wide.  The
      [int] counter [bits] and the masks [(1 << bits) - 1] are
      written without reduction: in every state the wrappers reach
      [bits] is between 0 and 12.  [std::distance] is the length of
      the list.
    - [assert] follows [<cassert>]: it aborts unless [NDEBUG] is
      defined.  Functions that contain one take the build flag
      [ndebug] and return a [result].
    - The loops run on fuel; running dry is the outcome [OutOfFuel],
      which the totality theorems exclude. *)

From Stdlib Require Import ZArith Lia List Bool.
From Stdlib Require Import Init.Byte Strings.Byte Strings.String.
From stdpp Require Import base list.
Import ListNotations.
Local Open Scope Z_scope.

(** ** Machine integers and characters *)

Definition size_t_bits : Z := 64.
Definition SIZE_MAX : Z := 2 ^ size_t_bits - 1.

(** Reduction of a mathematical integer to a [size_t]. *)
Definition to_size_t (x : Z) : Z := x mod 2 ^ size_t_bits.

Definition uint_fast16_bits : Z := 64.

(** Reduction to a [uint_fast16_t], also [static_cast<decltype(r)>]. *)
Definition to_fast16 (x : Z) : Z := x mod 2 ^ uint_fast16_bits.

(** [static_cast<unsigned char>(c)] of a stored character. *)
Definition uchar (c : byte) : Z := Z.of_N (Byte.to_N c).

(** [static_cast<char>(z)] (and to [unsigned char], [std::byte]) of an
    integer: the low eight bits. *)
Definition to_char (z : Z) : byte :=
  match Byte.of_N (Z.to_N (z mod 256)) with
  | Some b => b
  | None => x00
  end.

#[global] Instance byte_eq_decision : EqDecision byte := Byte.byte_eq_dec.

(** [*it]; the callers guard it by [it != end]. *)
Definition deref_it (it : list byte) : byte := hd x00 it.

(** ** Outcomes *)

Inductive result (A : Type) : Type :=
| Ok (a : A)
| AssertFailed
| OutOfFuel.
Arguments Ok {A} a.
Arguments AssertFailed {A}.
Arguments OutOfFuel {A}.

#[global] Instance result_ret : MRet result := fun _ a => Ok a.
#[global] Instance result_bind : MBind result := fun _ _ k m =>
  match m with
  | Ok a => k a
  | AssertFailed => AssertFailed
  | OutOfFuel => OutOfFuel
  end.

(** [assert(c)] in a build with the given [NDEBUG] setting. *)
Definition assert (ndebug c : bool) : result unit :=
  if c then Ok tt else if ndebug then Ok tt else AssertFailed.

(** ** namespace detail: the lookup tables *)

Module detail.

(** [to_b32z_lut]: the encoded character of every 5-bit value. *)
Definition to_b32z_lut : list byte :=
  ["y"; "b"; "n"; "d"; "r"; "f"; "g"; "8"; "e"; "j"; "k";
   "m"; "c"; "p"; "q"; "x"; "o"; "t"; "1"; "u"; "w"; "i";
   "s"; "z"; "a"; "3"; "4"; "5"; "h"; "7"; "6"; "9"]%byte.

(** One iteration of the constructor's loop, for the counter [c]. *)
Definition fill_step (from_lut : list byte) (c : nat) : list byte :=
  let x := uchar (default x00 (to_b32z_lut !! c)) in
  let from_lut := <[Z.to_nat x := to_char (Z.of_nat c)]> from_lut in
  if (uchar "a" <=? x) && (x <=? uchar "z")
  then <[Z.to_nat (x - uchar "a" + uchar "A") := to_char (Z.of_nat c)]> from_lut
  else from_lut.

(** [from_b32z_lut]: value-initialised to 256 zeros, then filled by
    [for (char c = 0; c < 32; c++)]. *)
Definition from_b32z_lut : list byte :=
  fold_left fill_step (seq 0 32) (replicate 256 x00).

(** [b32z_lut.from_b32z(c)], for an [unsigned char] argument. *)
Definition from_b32z (c : Z) : byte :=
  default x00 (from_b32z_lut !! Z.to_nat c).

(** [b32z_lut.to_b32z(b)].  Reading past the 32 entries is undefined
    in the source; the embedding then yields the NUL character,
    which is not part of the alphabet. *)
Definition to_b32z (b : Z) : byte :=
  default x00 (to_b32z_lut !! Z.to_nat b).

End detail.

(** ** Size functions *)

(** [(byte_size * 8 + 4) / 5] in [size_t] arithmetic. *)
Definition to_base32z_size (byte_size : Z) : Z :=
  to_size_t (to_size_t (byte_size * 8) + 4) / 5.

(** [bits % 8 < 5 ? bits / 8 : 0] for [bits = b32z_size * 5] in
    [size_t] arithmetic. *)
Definition from_base32z_size (b32z_size : Z) : Z :=
  let bits := to_size_t (b32z_size * 5) in
  if bits mod 8 <? 5 then bits / 8 else 0.

(** ** The encoder iterator *)

Module base32z_encoder.

(** [_it] is the list from the current input byte on ([_end] is its
    end); [bits] counts the bits held in [r]. *)
Record t : Type := mk { _it : list byte; bits : Z; r : Z }.

(** The constructor with its default member initialisers:
    [bits{_it != _end ? 8 : 0}] and
    [r{bits ? static_cast<unsigned char>( *_it) : 0}]. *)
Definition make (begin : list byte) : t :=
  let bits := if bool_decide (begin <> []) then 8 else 0 in
  let r := if negb (bits =? 0) then uchar (deref_it begin) else 0 in
  mk begin bits r.

(** [end()], that is [{_end, _end}]. *)
Definition end_ (e : t) : t := make [].

(** [operator==]: same position and same bit count.  Two positions
    in one range are equal when as many elements remain. *)
Definition operator_eq (a b : t) : bool :=
  (length (_it a) =? length (_it b))%nat && (bits a =? bits b).

Definition operator_ne (a b : t) : bool := negb (operator_eq a b).

(** [operator++]. *)
Definition operator_inc (ndebug : bool) (e : t) : result t :=
  _ ← assert ndebug (5 <=? bits e);
  let bits := bits e - 5 in
  let r := Z.land (r e) (to_fast16 ((1 ≪ bits) - 1)) in
  if (bits <? 5) && bool_decide (_it e <> []) then
    let it := tl (_it e) in
    if bool_decide (it <> []) then
      let r := Z.lor (to_fast16 (r ≪ 8)) (uchar (deref_it it)) in
      Ok (mk it (bits + 8) r)
    else if 0 <? bits then
      let r := to_fast16 (r ≪ (5 - bits)) in
      Ok (mk it 5 r)
    else Ok (mk it bits r)
  else Ok (mk (_it e) bits r).

(** [operator*]. *)
Definition operator_deref (e : t) : byte :=
  detail.to_b32z (uchar (to_char (r e ≫ (bits e - 5)))).

End base32z_encoder.

(** [std::copy(it, it.end(), out)] over encoder iterators: while
    [it != end], write [*it] and advance. *)
Fixpoint copy_encoder (fuel : nat) (ndebug : bool)
    (it last : base32z_encoder.t) (out : list byte) : result (list byte) :=
  match fuel with
  | O => OutOfFuel
  | S fuel =>
      if base32z_encoder.operator_ne it last then
        let c := base32z_encoder.operator_deref it in
        it ← base32z_encoder.operator_inc ndebug it;
        copy_encoder fuel ndebug it last (out ++ [c])
      else Ok out
  end.

(** [to_base32z(begin, end, out)]: appends the encoding to [out].  An
    input of n bytes takes at most 2n steps. *)
Definition to_base32z_out (ndebug : bool) (input out : list byte)
    : result (list byte) :=
  let it := base32z_encoder.make input in
  copy_encoder (S (2 * length input)) ndebug it (base32z_encoder.end_ it) out.

(** [std::string to_base32z(begin, end)]; the [reserve] call only
    sets the capacity of the result. *)
Definition to_base32z (ndebug : bool) (input : list byte) : result (list byte) :=
  to_base32z_out ndebug input [].

(** ** The validator *)

(** The length test applied to [count]. *)
Definition impossible_length (count : Z) : bool :=
  (count =? 1) || (count =? 3) || (count =? 6).

(** The scanning loop of [is_base32z]: [None] is the early
    [return false], otherwise the final [count]. *)
Fixpoint is_base32z_scan (random : bool) (s : list byte) (count : Z) : option Z :=
  match s with
  | [] => Some count
  | ch :: s =>
      let c := uchar ch in
      if (uchar (detail.from_b32z c) =? 0)
         && negb ((c =? uchar "y") || (c =? uchar "Y"))
      then None
      else is_base32z_scan random s
             (if random then count else to_size_t (count + 1))
  end.

(** [is_base32z(begin, end)]; [random] tells whether [It] is a random
    access iterator (as for a [std::string_view]). *)
Definition is_base32z (random : bool) (s : list byte) : bool :=
  let count := if random then to_size_t (Z.of_nat (length s) mod 8) else 0 in
  if random && impossible_length count then false
  else
    match is_base32z_scan random s count with
    | None => false
    | Some count =>
        if negb random && impossible_length (count mod 8) then false
        else true
    end.

(** ** The decoder iterator *)

Module base32z_decoder.

(** [_it] is the list from the last symbol loaded on; [bits] counts
    the bits loaded into [in_]. *)
Record t : Type := mk { _it : list byte; in_ : Z; bits : Z }.

Definition load_in (d : t) : t :=
  let v := uchar (detail.from_b32z (uchar (deref_it (_it d)))) in
  mk (_it d) (Z.lor (to_fast16 (in_ d ≪ 5)) v) (bits d + 5).

Definition load_byte (d : t) : t :=
  let d := load_in d in
  if bits d <? 8 then
    let d := mk (tl (_it d)) (in_ d) (bits d) in
    if bool_decide (_it d <> []) then load_in d else d
  else d.

(** The constructor: [in = 0], [bits = 0], then [load_byte] unless
    the range is empty. *)
Definition make (begin : list byte) : t :=
  let d := mk begin 0 0 in
  if bool_decide (begin <> []) then load_byte d else d.

(** [end()], that is [{_end, _end}]. *)
Definition end_ (d : t) : t := make [].

(** [operator!=] compares the positions only. *)
Definition operator_ne (a b : t) : bool :=
  negb (length (_it a) =? length (_it b))%nat.

(** [operator++]. *)
Definition operator_inc (d : t) : t :=
  let bits := bits d - 8 in
  let in_ := Z.land (in_ d) (to_fast16 ((1 ≪ bits) - 1)) in
  let d := mk (tl (_it d)) in_ bits in
  if bool_decide (_it d <> []) then load_byte d else d.

(** [operator*]. *)
Definition operator_deref (d : t) : byte :=
  to_char (in_ d ≫ (bits d - 8)).

End base32z_decoder.

(** The loop [while (it != bend) *out++ = *it++;].  The postfix
    increment hands back a copy of the old iterator, which is the one
    dereferenced. *)
Fixpoint decode_loop (fuel : nat) (it bend : base32z_decoder.t)
    (out : list byte) : result (list byte) :=
  match fuel with
  | O => OutOfFuel
  | S fuel =>
      if base32z_decoder.operator_ne it bend then
        let copy := it in
        let it := base32z_decoder.operator_inc it in
        decode_loop fuel it bend (out ++ [base32z_decoder.operator_deref copy])
      else Ok out
  end.

(** [from_base32z(begin, end, out)].  An input of k symbols takes at
    most k steps. *)
Definition from_base32z_out (ndebug random : bool) (input out : list byte)
    : result (list byte) :=
  _ ← assert ndebug (is_base32z random input);
  let it := base32z_decoder.make input in
  let bend := base32z_decoder.end_ it in
  decode_loop (S (length input)) it bend out.

(** [std::string from_base32z(begin, end)]. *)
Definition from_base32z (ndebug random : bool) (input : list byte)
    : result (list byte) :=
  from_base32z_out ndebug random input [].

(** A string literal as a character sequence. *)
Definition chars (s : string) : list byte := list_byte_of_string s.


(** ** The decoder over pointers into one buffer

    [from_base32z(begin, end, out)] documents that the input and
    output ranges may overlap as long as [out] is no later than
    [begin].  To state this the template is instantiated at pointers:
    the buffer is a [list byte], a pointer is an index into it, a read
    [*p] looks the index up in the current buffer and a write [*p = x]
    updates it.  Reads and writes outside the buffer are undefined in
    the source; here such a read yields NUL and such a write does
    nothing. *)

Definition read (mem : list byte) (p : nat) : byte := default x00 (mem !! p).

Module base32z_decoder_ptr.

Record t : Type := mk { _it : nat; _end : nat; in_ : Z; bits : Z }.

Definition load_in (mem : list byte) (d : t) : t :=
  let v := uchar (detail.from_b32z (uchar (read mem (_it d)))) in
  mk (_it d) (_end d) (Z.lor (to_fast16 (in_ d ≪ 5)) v) (bits d + 5).

Definition load_byte (mem : list byte) (d : t) : t :=
  let d := load_in mem d in
  if bits d <? 8 then
    let d := mk (S (_it d)) (_end d) (in_ d) (bits d) in
    if bool_decide (_it d <> _end d) then load_in mem d else d
  else d.

Definition make (mem : list byte) (begin end_ : nat) : t :=
  let d := mk begin end_ 0 0 in
  if bool_decide (begin <> end_) then load_byte mem d else d.

(** [end()], that is [{_end, _end}]: nothing is loaded. *)
Definition end_ (d : t) : t := mk (_end d) (_end d) 0 0.

Definition operator_ne (a b : t) : bool := negb (_it a =? _it b)%nat.

Definition operator_inc (mem : list byte) (d : t) : t :=
  let bits := bits d - 8 in
  let in_ := Z.land (in_ d) (to_fast16 ((1 ≪ bits) - 1)) in
  let d := mk (S (_it d)) (_end d) in_ bits in
  if bool_decide (_it d <> _end d) then load_byte mem d else d.

Definition operator_deref (d : t) : byte :=
  to_char (in_ d ≫ (bits d - 8)).

End base32z_decoder_ptr.

(** The loop [while (it != bend) *out++ = *it++;] on the buffer.  The
    right operand of the assignment is evaluated first: the iterator
    is advanced, reading the buffer as it is, and only then the byte
    is stored at [out]. *)
Fixpoint decode_loop_ptr (fuel : nat) (mem : list byte)
    (it bend : base32z_decoder_ptr.t) (out : nat) : result (list byte * nat) :=
  match fuel with
  | O => OutOfFuel
  | S fuel =>
      if base32z_decoder_ptr.operator_ne it bend then
        let copy := it in
        let it := base32z_decoder_ptr.operator_inc mem it in
        let mem := <[out := base32z_decoder_ptr.operator_deref copy]> mem in
        decode_loop_ptr fuel mem it bend (S out)
      else Ok (mem, out)
  end.

(** The characters of the range [begin, end) of the buffer. *)
Definition range (mem : list byte) (begin end_ : nat) : list byte :=
  take (end_ - begin) (drop begin mem).

(** [from_base32z(begin, end, out)] for three pointers into [mem]:
    the final buffer and the final value of [out].  Pointers are
    random access iterators. *)
Definition from_base32z_ptr (ndebug : bool) (mem : list byte)
    (begin end_ out : nat) : result (list byte * nat) :=
  _ ← assert ndebug (is_base32z true (range mem begin end_));
  let it := base32z_decoder_ptr.make mem begin end_ in
  let bend := base32z_decoder_ptr.end_ it in
  decode_loop_ptr (S (end_ - begin)) mem it bend out.

(** ** Literals *)

(** [detail::b32z_literal<Char, N>] for a one-byte [Char]: the array
    [decoded] and the flag [valid]. *)
Record b32z_literal : Type :=
  mk_b32z_literal { decoded : list byte; valid : bool }.

(** The constructor, for the string [str] of the [N - 1] characters
    before the terminating NUL.  [decoded] has
    [from_base32z_size(N - 1) + 1] elements; [from_base32z] writes
    into it from its start when the string is valid, and the loop
    after it sets the elements from there to the end of the array to
    0.  Writing past the end of the array is undefined, which in a
    constant expression makes the program ill-formed: the outcome is
    then [None]. *)
Definition b32z_literal_make (ndebug : bool) (str : list byte)
    : result (option b32z_literal) :=
  let size := Z.to_nat (to_size_t (from_base32z_size (Z.of_nat (length str)) + 1)) in
  let valid := is_base32z true str in
  written ← (if valid then from_base32z_out ndebug true str [] else Ok []);
  if (length written <=? size)%nat then
    Ok (Some (mk_b32z_literal
                (written ++ replicate (size - length written) x00) valid))
  else Ok None.

(** [view()]: [{decoded, valid ? sizeof(decoded) - 1 : 0}]. *)
Definition view (lit : b32z_literal) : list byte :=
  take (if valid lit then length (decoded lit) - 1 else 0)%nat (decoded lit).

(** [operator""_b32z]: the view, unless the static assertion on
    [valid] rejects the program ([None]). *)
Definition operator_b32z (lit : b32z_literal) : option (list byte) :=
  if valid lit then Some (view lit) else None.

(** ** Specification-side definitions *)

(** The decoded 5-bit value of a character, as the decoder reads it. *)
Definition value_of (c : byte) : Z := uchar (detail.from_b32z (uchar c)).

(** The encoded character of a 5-bit value, as the encoder writes it. *)
Definition symbol_of (v : Z) : byte := detail.to_b32z v.

(** The ASCII upper-case form of a character. *)
Definition to_upper (c : byte) : byte :=
  if (uchar "a" <=? uchar c) && (uchar c <=? uchar "z")
  then to_char (uchar c - uchar "a" + uchar "A")
  else c.

(** The ASCII lower-case form of a character. *)
Definition to_lower (c : byte) : byte :=
  if (uchar "A" <=? uchar c) && (uchar c <=? uchar "Z")
  then to_char (uchar c - uchar "A" + uchar "a")
  else c.

(** The 32 symbols, in the order of their values. *)
Definition alphabet : list byte := chars "ybndrfg8ejkmcpqxot1uwisza345h769".

(** Membership in the alphabet; the case-insensitive variant compares
    the lower-case form. *)
Definition in_alphabet (c : byte) : Prop := c ∈ alphabet.

Definition in_alphabet_nocase (c : byte) : Prop := to_lower c ∈ alphabet.

(** [c] is the ceiling of [num / den], for a positive [den]. *)
Definition is_ceiling (num den c : Z) : Prop :=
  den * (c - 1) < num <= den * c.

(** *** The codec by quanta

    Five bytes are forty bits are eight symbols.  [quantum] cuts the
    forty bits of five bytes into eight 5-bit values, [unquantum]
    joins eight 5-bit values into five bytes; both take the most
    significant bits first. *)

Definition quantum (b1 b2 b3 b4 b5 : Z) : list Z :=
  [ b1 / 8;
    (b1 mod 8) * 4 + b2 / 64;
    (b2 / 2) mod 32;
    (b2 mod 2) * 16 + b3 / 16;
    (b3 mod 16) * 2 + b4 / 128;
    (b4 / 4) mod 32;
    (b4 mod 4) * 8 + b5 / 32;
    b5 mod 32 ].

Definition unquantum (v1 v2 v3 v4 v5 v6 v7 v8 : Z) : list Z :=
  [ v1 * 8 + v2 / 4;
    (v2 mod 4) * 64 + v3 * 2 + v4 / 16;
    (v4 mod 16) * 16 + v5 / 2;
    (v5 mod 2) * 128 + v6 * 4 + v7 / 8;
    (v7 mod 8) * 32 + v8 ].

(** The 5-bit values of the encoding of a byte sequence: whole quanta,
    then a last partial quantum whose missing bits are zero, cut after
    the last symbol that holds input bits. *)
Fixpoint encode_spec (input : list byte) : list Z :=
  match input with
  | [] => []
  | [b1] => take 2 (quantum (uchar b1) 0 0 0 0)
  | [b1; b2] => take 4 (quantum (uchar b1) (uchar b2) 0 0 0)
  | [b1; b2; b3] => take 5 (quantum (uchar b1) (uchar b2) (uchar b3) 0 0)
  | [b1; b2; b3; b4] =>
      take 7 (quantum (uchar b1) (uchar b2) (uchar b3) (uchar b4) 0)
  | b1 :: b2 :: b3 :: b4 :: b5 :: rest =>
      quantum (uchar b1) (uchar b2) (uchar b3) (uchar b4) (uchar b5)
      ++ encode_spec rest
  end.

(** The byte values decoded from a sequence of 5-bit values: whole
    quanta, then the whole bytes of a last partial quantum; the bits
    left over are dropped. *)
Fixpoint decode_spec (vs : list Z) : list Z :=
  match vs with
  | [] => []
  | [v1] => []
  | [v1; v2] => take 1 (unquantum v1 v2 0 0 0 0 0 0)
  | [v1; v2; v3] => take 1 (unquantum v1 v2 v3 0 0 0 0 0)
  | [v1; v2; v3; v4] => take 2 (unquantum v1 v2 v3 v4 0 0 0 0)
  | [v1; v2; v3; v4; v5] => take 3 (unquantum v1 v2 v3 v4 v5 0 0 0)
  | [v1; v2; v3; v4; v5; v6] => take 3 (unquantum v1 v2 v3 v4 v5 v6 0 0)
  | [v1; v2; v3; v4; v5; v6; v7] => take 4 (unquantum v1 v2 v3 v4 v5 v6 v7 0)
  | v1 :: v2 :: v3 :: v4 :: v5 :: v6 :: v7 :: v8 :: rest =>
      unquantum v1 v2 v3 v4 v5 v6 v7 v8 ++ decode_spec rest
  end.

(** A symbol count that some byte count encodes to: its remainder
    modulo 8 is none of 1, 3 and 6. *)
Definition valid_length (k : Z) : Prop :=
  k mod 8 <> 1 /\ k mod 8 <> 3 /\ k mod 8 <> 6.

(** [c'] is [c] or its upper-case form. *)
Definition case_variant (c c' : byte) : Prop := c' = c \/ c' = to_upper c.

(** The number of padding bits in the last of [k] symbols. *)
Definition padding_bits (k : Z) : Z := (5 * k) mod 8.

(** The padding bits of the last value of a sequence are all zero (an
    empty sequence has none). *)
Definition zero_padding (vs : list Z) : Prop :=
  match last vs with
  | Some v => v mod 2 ^ padding_bits (Z.of_nat (length vs)) = 0
  | None => True
  end.

(** What the encoder keeps between two symbols: the register holds
    exactly [bits] bits; before the end of the input these are 5 to
    12, after it 5 (the padded last symbol) or none. *)
Definition encoder_invariant (e : base32z_encoder.t) : Prop :=
  0 <= base32z_encoder.r e < 2 ^ base32z_encoder.bits e /\
  if bool_decide (base32z_encoder._it e <> [])
  then 5 <= base32z_encoder.bits e <= 12
  else base32z_encoder.bits e = 0 \/ base32z_encoder.bits e = 5.

(** The number of symbols a decoder over [total] symbols has loaded. *)
Definition loaded (total : nat) (d : base32z_decoder.t) : Z :=
  Z.of_nat total - Z.of_nat (length (base32z_decoder._it d))
  + (if bool_decide (base32z_decoder._it d <> []) then 1 else 0).

(** What the decoder keeps after [j] bytes: the register holds exactly
    [bits] bits, which are the bits loaded and not yet written; before
    the end of the input these are 8 to 12, at the end fewer than 8. *)
Definition decoder_invariant (total : nat) (d : base32z_decoder.t) (j : Z) : Prop :=
  0 <= base32z_decoder.in_ d < 2 ^ base32z_decoder.bits d /\
  (length (base32z_decoder._it d) <= total)%nat /\
  8 * j + base32z_decoder.bits d = 5 * loaded total d /\
  if bool_decide (base32z_decoder._it d <> [])
  then 8 <= base32z_decoder.bits d <= 12
  else 0 <= base32z_decoder.bits d < 8.

(** The list decoder that a pointer decoder stands for in a buffer. *)
Definition decoder_of (mem : list byte) (d : base32z_decoder_ptr.t)
    : base32z_decoder.t :=
  base32z_decoder.mk
    (range mem (base32z_decoder_ptr._it d) (base32z_decoder_ptr._end d))
    (base32z_decoder_ptr.in_ d) (base32z_decoder_ptr.bits d).

(** * Properties *)

(** ** Characters and machine integers *)

Lemma uchar_range (c : byte) : 0 <= uchar c < 256.
Proof.
  unfold uchar. pose proof (Byte.to_N_bounded c). lia.
Qed.

Lemma uchar_to_char (z : Z) : uchar (to_char z) = z mod 256.
Proof.
  unfold uchar, to_char.
  assert (Hz : 0 <= z mod 256 < 256) by (apply Z.mod_pos_bound; lia).
  destruct (Byte.of_N (Z.to_N (z mod 256))) as [b|] eqn:E.
  - apply Byte.to_of_N in E. rewrite E. lia.
  - apply Byte.of_N_None_iff in E. lia.
Qed.

Lemma to_char_uchar (c : byte) : to_char (uchar c) = c.
Proof.
  unfold to_char, uchar.
  pose proof (Byte.to_N_bounded c).
  rewrite Z.mod_small by lia.
  rewrite N2Z.id, Byte.of_to_N. reflexivity.
Qed.

Lemma uchar_inj (a b : byte) : uchar a = uchar b -> a = b.
Proof.
  intros H. rewrite <- (to_char_uchar a), <- (to_char_uchar b), H. reflexivity.
Qed.

Lemma to_fast16_small (x : Z) : 0 <= x < 2 ^ 16 -> to_fast16 x = x.
Proof.
  intros H. unfold to_fast16, uint_fast16_bits.
  apply Z.mod_small. change (2 ^ 64) with 18446744073709551616. change (2 ^ 16) with 65536 in H. lia.
Qed.

Lemma to_size_t_small (x : Z) : 0 <= x <= SIZE_MAX -> to_size_t x = x.
Proof.
  unfold to_size_t, SIZE_MAX. intros H. apply Z.mod_small. lia.
Qed.

(** The mask [(1 << n) - 1] keeps the low [n] bits. *)
Lemma land_mask (x n : Z) :
  0 <= n <= 15 -> Z.land x (to_fast16 ((1 ≪ n) - 1)) = x mod 2 ^ n.
Proof.
  intros Hn.
  rewrite Z.shiftl_1_l.
  rewrite to_fast16_small.
  - rewrite <- Z.land_ones by lia. rewrite Z.ones_equiv. reflexivity.
  - assert (0 < 2 ^ n) by (apply Z.pow_pos_nonneg; lia).
    assert (2 ^ n <= 2 ^ 15) by (apply Z.pow_le_mono_r; lia).
    change (2 ^ 15) with 32768 in *. change (2 ^ 16) with 65536. lia.
Qed.

(** Or-ing a value below [2 ^ k] into a register shifted left by [k]
    adds it. *)
Lemma lor_shifted (x v k : Z) :
  0 <= k -> 0 <= v < 2 ^ k -> Z.lor (x * 2 ^ k) v = x * 2 ^ k + v.
Proof.
  intros Hk Hv. symmetry. apply Z.add_nocarry_lor.
  apply Z.bits_inj'. intros n Hn.
  rewrite Z.land_spec, Z.bits_0.
  destruct (Z.lt_ge_cases n k) as [Hlt|Hge].
  - rewrite Z.mul_pow2_bits_low by lia. reflexivity.
  - assert (Z.testbit v n = false) as ->; [|apply andb_false_r].
    destruct (Z.eq_dec v 0) as [->|Hne]; [apply Z.bits_0|].
    apply Z.bits_above_log2; [lia|].
    apply Z.lt_le_trans with k; [|lia].
    apply Z.log2_lt_pow2; lia.
Qed.

(** ** Induction by chunks *)

(** To prove a property of all lists it is enough to prove it for the
    lists shorter than [n] and to carry it over a prefix of [n]
    elements. *)
Lemma chunk_ind {A : Type} (n : nat) (P : list A -> Prop) :
  (0 < n)%nat ->
  (forall l, (length l < n)%nat -> P l) ->
  (forall pre l, length pre = n -> P l -> P (pre ++ l)) ->
  forall l, P l.
Proof.
  intros Hn Hshort Hchunk l.
  remember (length l) as m eqn:Hm. revert l Hm.
  induction m as [m IH] using lt_wf_ind. intros l Hm.
  destruct (Nat.lt_ge_cases (length l) n) as [Hlt|Hge].
  - apply Hshort. exact Hlt.
  - rewrite <- (take_drop n l). apply Hchunk.
    + rewrite length_take. lia.
    + apply (IH (length (drop n l))); [|reflexivity].
      rewrite length_drop. lia.
Qed.

(** ** The lookup tables *)

(** A Boolean property of 5-bit values is settled by running it on
    the 32 of them. *)
Lemma forall_value (P : Z -> bool) :
  forallb P (map Z.of_nat (seq 0 32)) = true ->
  forall v, 0 <= v < 32 -> P v = true.
Proof.
  intros H v Hv.
  rewrite forallb_forall in H. apply H.
  apply in_map_iff. exists (Z.to_nat v). split; [lia|].
  apply in_seq. lia.
Qed.

(** The static assertion of the header. *)
Lemma b32z_lut_static_assert :
  uchar (detail.from_b32z (uchar "w")) = 20 /\
  uchar (detail.from_b32z (uchar "T")) = 17 /\
  detail.to_b32z 5 = "f"%byte.
Proof. repeat split; vm_compute; reflexivity. Qed.

Lemma from_b32z_lut_length : length detail.from_b32z_lut = 256%nat.
Proof. vm_compute. reflexivity. Qed.

Lemma to_b32z_lut_length : length detail.to_b32z_lut = 32%nat.
Proof. reflexivity. Qed.

(** The forward table is the alphabet of the specification. *)
Lemma to_b32z_lut_alphabet : detail.to_b32z_lut = alphabet.
Proof. reflexivity. Qed.

(** Every lookup of the decoder is inside the 256-entry table. *)
Lemma from_b32z_in_bounds (c : byte) :
  exists x, detail.from_b32z_lut !! Z.to_nat (uchar c) = Some x.
Proof.
  apply lookup_lt_is_Some_2. rewrite from_b32z_lut_length.
  pose proof (uchar_range c). lia.
Qed.

Lemma value_of_range (c : byte) : 0 <= value_of c < 32.
Proof.
  assert (H : (0 <=? value_of c) && (value_of c <? 32) = true)
    by (destruct c; vm_compute; reflexivity).
  apply andb_true_iff in H. lia.
Qed.

Lemma value_of_symbol_of (v : Z) : 0 <= v < 32 -> value_of (symbol_of v) = v.
Proof.
  intros Hv. apply Z.eqb_eq.
  revert v Hv. apply (forall_value (fun v => value_of (symbol_of v) =? v)).
  vm_compute. reflexivity.
Qed.

Lemma symbol_of_in_alphabet (v : Z) : 0 <= v < 32 -> in_alphabet (symbol_of v).
Proof.
  intros Hv. unfold in_alphabet.
  apply (bool_decide_eq_true_1 _).
  revert v Hv.
  apply (forall_value (fun v => bool_decide (symbol_of v ∈ alphabet))).
  vm_compute. reflexivity.
Qed.

(** The symbols of the alphabet are pairwise distinct: the forward
    table is injective on 5-bit values. *)
Lemma symbol_of_inj (v w : Z) :
  0 <= v < 32 -> 0 <= w < 32 -> symbol_of v = symbol_of w -> v = w.
Proof.
  intros Hv Hw H.
  rewrite <- (value_of_symbol_of v Hv), <- (value_of_symbol_of w Hw), H.
  reflexivity.
Qed.

(** The character test of [is_base32z] is case-insensitive membership
    in the alphabet. *)
Lemma char_test_alphabet (c : byte) :
  (uchar (detail.from_b32z (uchar c)) =? 0)
  && negb ((uchar c =? uchar "y") || (uchar c =? uchar "Y"))
  = negb (bool_decide (in_alphabet_nocase c)).
Proof. destruct c; vm_compute; reflexivity. Qed.

Lemma value_of_to_upper (c : byte) : value_of (to_upper c) = value_of c.
Proof. destruct c; vm_compute; reflexivity. Qed.

Lemma value_of_to_lower (c : byte) : value_of (to_lower c) = value_of c.
Proof. destruct c; vm_compute; reflexivity. Qed.

Lemma in_alphabet_nocase_to_upper (c : byte) :
  in_alphabet_nocase (to_upper c) <-> in_alphabet_nocase c.
Proof.
  assert (H : bool_decide (in_alphabet_nocase (to_upper c))
              = bool_decide (in_alphabet_nocase c))
    by (destruct c; vm_compute; reflexivity).
  split; intros Hc; apply (bool_decide_eq_true_1 _);
    apply (bool_decide_eq_true_2 _) in Hc; congruence.
Qed.

Lemma in_alphabet_nocase_of_alphabet (c : byte) :
  in_alphabet c -> in_alphabet_nocase c.
Proof.
  intros Hc. apply (bool_decide_eq_true_1 _).
  apply (bool_decide_eq_true_2 _) in Hc. revert Hc.
  destruct c; vm_compute; intros H; first [reflexivity | discriminate H].
Qed.

(** Characters outside the alphabet read as the value 0, like ['y']. *)
Lemma value_of_outside (c : byte) : ~ in_alphabet_nocase c -> value_of c = 0.
Proof.
  intros Hc. apply (bool_decide_eq_false_2 _) in Hc. revert Hc.
  destruct c; vm_compute; intros H; first [reflexivity | discriminate H].
Qed.

(** Inside the alphabet the inverse table inverts the forward table,
    whatever the case of the character. *)
Lemma symbol_of_value_of (c : byte) :
  in_alphabet_nocase c -> symbol_of (value_of c) = to_lower c.
Proof.
  intros Hc. apply (bool_decide_eq_true_2 _) in Hc. revert Hc.
  destruct c; vm_compute; intros H; first [reflexivity | discriminate H].
Qed.

(** ** The encoder, step by step *)

(** Linear goals with divisions and remainders by constants. *)
Ltac zsolve := Z.div_mod_to_equations; lia.

Lemma pow2_pos (k : Z) : 0 <= k -> 0 < 2 ^ k.
Proof. intros. apply Z.pow_pos_nonneg; lia. Qed.

Section encoder_steps.
Variables (ndebug : bool) (fuel : nat) (out : list byte).
Abbreviation last := (base32z_encoder.make []).
Abbreviation mk := base32z_encoder.mk.

(** What [operator*] yields while at least five bits are held. *)
Lemma encoder_deref it bits r k p :
  k = bits - 5 -> p = 2 ^ k -> 0 <= k -> 0 <= r < 32 * p ->
  base32z_encoder.operator_deref (mk it bits r) = symbol_of (r / p).
Proof.
  intros -> -> Hk Hr. unfold base32z_encoder.operator_deref, symbol_of.
  cbn [base32z_encoder.r base32z_encoder.bits].
  rewrite uchar_to_char, Z.shiftr_div_pow2 by lia.
  pose proof (pow2_pos _ Hk).
  f_equal. apply Z.mod_small.
  split; [apply Z.div_pos; lia|].
  apply Z.div_lt_upper_bound; lia.
Qed.

Lemma encoder_ne it bits r :
  bits <> 0 -> base32z_encoder.operator_ne (mk it bits r) last = true.
Proof.
  intros H. unfold base32z_encoder.operator_ne, base32z_encoder.operator_eq.
  cbn. apply Z.eqb_neq in H. rewrite H, andb_false_r. reflexivity.
Qed.

(** Ten bits or more: the next symbol is already in the register. *)
Lemma copy_step_keep it bits r k p :
  k = bits - 5 -> p = 2 ^ k -> 5 <= k <= 10 -> 0 <= r < 32 * p ->
  copy_encoder (S fuel) ndebug (mk it bits r) last out
  = copy_encoder fuel ndebug (mk it k (r mod p)) last
      (out ++ [symbol_of (r / p)]).
Proof.
  intros Hk Hp Hk' Hr. cbn [copy_encoder].
  rewrite encoder_ne by lia.
  rewrite (encoder_deref _ _ _ k p) by (assumption || lia).
  unfold base32z_encoder.operator_inc.
  cbn [base32z_encoder.r base32z_encoder.bits base32z_encoder._it].
  replace (5 <=? bits) with true by (symmetry; apply Z.leb_le; lia).
  cbn [assert mbind result_bind].
  rewrite <- Hk. replace (k <? 5) with false by (symmetry; apply Z.ltb_ge; lia).
  cbn [andb]. rewrite land_mask by lia. rewrite <- Hp. reflexivity.
Qed.

(** Fewer than ten bits and another input byte: it is pulled in. *)
Lemma copy_step_load b c rest bits r k p bits' :
  k = bits - 5 -> p = 2 ^ k -> bits' = k + 8 -> 0 <= k < 5 ->
  0 <= r < 32 * p ->
  copy_encoder (S fuel) ndebug (mk (b :: c :: rest) bits r) last out
  = copy_encoder fuel ndebug
      (mk (c :: rest) bits' ((r mod p) * 256 + uchar c)) last
      (out ++ [symbol_of (r / p)]).
Proof.
  intros Hk Hp -> Hk' Hr. cbn [copy_encoder].
  rewrite encoder_ne by lia.
  rewrite (encoder_deref _ _ _ k p) by (assumption || lia).
  unfold base32z_encoder.operator_inc.
  cbn [base32z_encoder.r base32z_encoder.bits base32z_encoder._it].
  replace (5 <=? bits) with true by (symmetry; apply Z.leb_le; lia).
  cbn [assert mbind result_bind].
  rewrite <- Hk. replace (k <? 5) with true by (symmetry; apply Z.ltb_lt; lia).
  cbn [andb tl deref_it hd]. rewrite !bool_decide_eq_true_2 by discriminate.
  rewrite land_mask by lia. rewrite <- Hp.
  pose proof (pow2_pos k ltac:(lia)) as Hp0. rewrite <- Hp in Hp0.
  assert (Hm : 0 <= r mod p < p) by (apply Z.mod_pos_bound; lia).
  assert (Hpk : p <= 2 ^ 4) by (subst p; apply Z.pow_le_mono_r; lia).
  change (2 ^ 4) with 16 in Hpk.
  rewrite Z.shiftl_mul_pow2 by lia. change (2 ^ 8) with 256.
  rewrite to_fast16_small by (change (2 ^ 16) with 65536; lia).
  change 256 with (2 ^ 8) at 1.
  rewrite lor_shifted by (pose proof (uchar_range c); change (2 ^ 8) with 256; lia).
  reflexivity.
Qed.

(** One to four bits and no further input: they are moved to the
    top of a last symbol. *)
Lemma copy_step_pad b bits r k p q :
  k = bits - 5 -> p = 2 ^ k -> q = 2 ^ (5 - k) -> 0 < k < 5 ->
  0 <= r < 32 * p ->
  copy_encoder (S fuel) ndebug (mk [b] bits r) last out
  = copy_encoder fuel ndebug (mk [] 5 ((r mod p) * q)) last
      (out ++ [symbol_of (r / p)]).
Proof.
  intros Hk Hp -> Hk' Hr. cbn [copy_encoder].
  rewrite encoder_ne by lia.
  rewrite (encoder_deref _ _ _ k p) by (assumption || lia).
  unfold base32z_encoder.operator_inc.
  cbn [base32z_encoder.r base32z_encoder.bits base32z_encoder._it].
  replace (5 <=? bits) with true by (symmetry; apply Z.leb_le; lia).
  cbn [assert mbind result_bind].
  rewrite <- Hk. replace (k <? 5) with true by (symmetry; apply Z.ltb_lt; lia).
  cbn [andb tl]. rewrite bool_decide_eq_true_2 by discriminate.
  rewrite bool_decide_eq_false_2 by (intros H; apply H; reflexivity).
  replace (0 <? k) with true by (symmetry; apply Z.ltb_lt; lia).
  rewrite land_mask by lia. rewrite <- Hp.
  pose proof (pow2_pos k ltac:(lia)) as Hp0. rewrite <- Hp in Hp0.
  assert (Hm : 0 <= r mod p < p) by (apply Z.mod_pos_bound; lia).
  assert (Hq : 0 < 2 ^ (5 - k)) by (apply pow2_pos; lia).
  assert (Hpq : p * 2 ^ (5 - k) = 32).
  { subst p. rewrite <- Z.pow_add_r by lia. replace (k + (5 - k)) with 5 by lia.
    reflexivity. }
  rewrite Z.shiftl_mul_pow2 by lia.
  rewrite to_fast16_small by (change (2 ^ 16) with 65536; nia).
  reflexivity.
Qed.

(** The last input byte is used up exactly: the encoder becomes the
    fresh encoder of the remaining input. *)
Lemma copy_step_restart b rest r :
  0 <= r < 32 ->
  copy_encoder (S fuel) ndebug (mk (b :: rest) 5 r) last out
  = copy_encoder fuel ndebug (base32z_encoder.make rest) last
      (out ++ [symbol_of r]).
Proof.
  intros Hr. cbn [copy_encoder].
  rewrite encoder_ne by lia.
  rewrite (encoder_deref _ _ _ 0 1) by (reflexivity || lia).
  rewrite Z.div_1_r.
  unfold base32z_encoder.operator_inc.
  cbn [base32z_encoder.r base32z_encoder.bits base32z_encoder._it].
  change (5 <=? 5) with true. cbn [assert mbind result_bind].
  change (5 - 5) with 0. change (0 <? 5) with true. change (0 <? 0) with false.
  cbn [andb tl]. rewrite bool_decide_eq_true_2 by discriminate.
  rewrite land_mask by lia. change (2 ^ 0) with 1. rewrite Z.mod_1_r.
  destruct rest as [|c rest]; reflexivity.
Qed.

(** The padded last symbol, after which the encoder is at its end. *)
Lemma copy_step_final r :
  0 <= r < 32 ->
  copy_encoder (S (S fuel)) ndebug (mk [] 5 r) last out
  = Ok (out ++ [symbol_of r]).
Proof.
  intros Hr. cbn [copy_encoder].
  rewrite encoder_ne by lia.
  rewrite (encoder_deref _ _ _ 0 1) by (reflexivity || lia).
  rewrite Z.div_1_r.
  unfold base32z_encoder.operator_inc.
  cbn [base32z_encoder.r base32z_encoder.bits base32z_encoder._it].
  change (5 <=? 5) with true. cbn [assert mbind result_bind].
  change (5 - 5) with 0. change (0 <? 5) with true.
  rewrite bool_decide_eq_false_2 by (intros H; apply H; reflexivity).
  cbn [andb]. reflexivity.
Qed.

Lemma copy_stop : copy_encoder (S fuel) ndebug last last out = Ok out.
Proof. reflexivity. Qed.

End encoder_steps.

(** ** The encoder computes [encode_spec] *)

Ltac side_condition := first [reflexivity | lia | zsolve].

(** One iteration of the encoder's copy loop, chosen by the shape of
    the iterator in the goal. *)
Ltac encoder_step :=
  match goal with
  | |- context [copy_encoder (S _) _ (base32z_encoder.mk ?it ?b ?r) _ _] =>
      let k := eval vm_compute in (b - 5) in
      let p := eval vm_compute in (2 ^ k) in
      let b' := eval vm_compute in (k + 8) in
      let q := eval vm_compute in (2 ^ (5 - k)) in
      first
        [ rewrite (copy_step_restart _ _ _ _ _ r) by side_condition
        | rewrite (copy_step_keep _ _ _ it b r k p) by side_condition
        | rewrite (copy_step_load _ _ _ _ _ _ b r k p b') by side_condition
        | rewrite (copy_step_pad _ _ _ _ b r k p q) by side_condition
        | rewrite (copy_step_final _ _ _ r) by side_condition ]
  end.

(** Equality of two lists of symbols, element by element. *)
Ltac symbols_eq :=
  repeat (apply (f_equal2 cons); [first [reflexivity | f_equal; zsolve] |]);
  try reflexivity.

Lemma copy_encoder_spec (ndebug : bool) (input : list byte) :
  forall (fuel : nat) (out : list byte),
    (length (encode_spec input) < fuel)%nat ->
    copy_encoder fuel ndebug (base32z_encoder.make input)
      (base32z_encoder.make []) out
    = Ok (out ++ map symbol_of (encode_spec input)).
Proof.
  pattern input. apply (chunk_ind 5); clear input;
    [lia | intros input Hshort | intros pre input Hpre IH];
    intros fuel out Hfuel.
  - destruct input as [|b1 [|b2 [|b3 [|b4 [|b5 rest]]]]];
      [ | | | | | cbn [length] in Hshort; lia].
    + destruct fuel; [cbn in Hfuel; lia|].
      rewrite copy_stop, app_nil_r. reflexivity.
    + pose proof (uchar_range b1).
      cbn in Hfuel. do 3 (destruct fuel as [|fuel]; [lia|]).
      change (base32z_encoder.make [b1])
        with (base32z_encoder.mk [b1] 8 (uchar b1)).
      do 2 encoder_step.
      rewrite <- !app_assoc. cbn. f_equal. f_equal. symbols_eq.
    + pose proof (uchar_range b1). pose proof (uchar_range b2).
      cbn in Hfuel. do 5 (destruct fuel as [|fuel]; [lia|]).
      change (base32z_encoder.make [b1; b2])
        with (base32z_encoder.mk [b1; b2] 8 (uchar b1)).
      do 4 encoder_step.
      rewrite <- !app_assoc. cbn. f_equal. f_equal. symbols_eq.
    + pose proof (uchar_range b1). pose proof (uchar_range b2).
      pose proof (uchar_range b3).
      cbn in Hfuel. do 6 (destruct fuel as [|fuel]; [lia|]).
      change (base32z_encoder.make [b1; b2; b3])
        with (base32z_encoder.mk [b1; b2; b3] 8 (uchar b1)).
      do 5 encoder_step.
      rewrite <- !app_assoc. cbn. f_equal. f_equal. symbols_eq.
    + pose proof (uchar_range b1). pose proof (uchar_range b2).
      pose proof (uchar_range b3). pose proof (uchar_range b4).
      cbn in Hfuel. do 8 (destruct fuel as [|fuel]; [lia|]).
      change (base32z_encoder.make [b1; b2; b3; b4])
        with (base32z_encoder.mk [b1; b2; b3; b4] 8 (uchar b1)).
      do 7 encoder_step.
      rewrite <- !app_assoc. cbn. f_equal. f_equal. symbols_eq.
  - destruct pre as [|b1 [|b2 [|b3 [|b4 [|b5 [|]]]]]]; try discriminate Hpre.
    cbn [app]. cbn [app] in Hfuel.
    pose proof (uchar_range b1). pose proof (uchar_range b2).
    pose proof (uchar_range b3). pose proof (uchar_range b4).
    pose proof (uchar_range b5).
    cbn [encode_spec quantum app length] in Hfuel.
    do 8 (destruct fuel as [|fuel]; [lia|]).
    change (base32z_encoder.make (b1 :: b2 :: b3 :: b4 :: b5 :: input))
      with (base32z_encoder.mk (b1 :: b2 :: b3 :: b4 :: b5 :: input) 8 (uchar b1)).
    do 8 encoder_step.
    rewrite IH by lia.
    cbn [encode_spec quantum]. rewrite map_app, <- !app_assoc.
    cbn [map app]. f_equal. f_equal. symbols_eq.
Qed.

(** ** The decoder, step by step *)

Lemma load_in_arith it in_ bits :
  0 <= in_ < 2 ^ 11 ->
  base32z_decoder.load_in (base32z_decoder.mk it in_ bits)
  = base32z_decoder.mk it (in_ * 32 + value_of (deref_it it)) (bits + 5).
Proof.
  intros Hin. unfold base32z_decoder.load_in.
  cbn [base32z_decoder._it base32z_decoder.in_ base32z_decoder.bits].
  fold (value_of (deref_it it)).
  pose proof (value_of_range (deref_it it)).
  change (2 ^ 11) with 2048 in Hin.
  rewrite Z.shiftl_mul_pow2 by lia. change (2 ^ 5) with 32.
  rewrite to_fast16_small by (change (2 ^ 16) with 65536; lia).
  change 32 with (2 ^ 5) at 1.
  rewrite lor_shifted by (change (2 ^ 5) with 32; lia).
  reflexivity.
Qed.

Lemma decoder_make_1 c :
  base32z_decoder.make [c] = base32z_decoder.mk [] (value_of c) 5.
Proof.
  unfold base32z_decoder.make, base32z_decoder.load_byte.
  rewrite bool_decide_eq_true_2 by discriminate.
  rewrite load_in_arith by (change (2 ^ 11) with 2048; lia).
  reflexivity.
Qed.

Lemma decoder_make_2 c c' rest :
  base32z_decoder.make (c :: c' :: rest)
  = base32z_decoder.mk (c' :: rest) (value_of c * 32 + value_of c') 10.
Proof.
  unfold base32z_decoder.make, base32z_decoder.load_byte.
  rewrite bool_decide_eq_true_2 by discriminate.
  rewrite load_in_arith by (change (2 ^ 11) with 2048; lia).
  cbn [base32z_decoder._it base32z_decoder.in_ base32z_decoder.bits
       Z.add Z.ltb Z.compare Pos.compare Pos.compare_cont tl].
  rewrite bool_decide_eq_true_2 by discriminate.
  pose proof (value_of_range c).
  rewrite load_in_arith by (cbn [deref_it hd]; change (2 ^ 11) with 2048; lia).
  reflexivity.
Qed.

Section decoder_steps.
Variables (fuel : nat) (out : list byte).
Abbreviation dlast := (base32z_decoder.make []).
Abbreviation dmk := base32z_decoder.mk.

Lemma decode_stop in_ bits :
  decode_loop (S fuel) (dmk [] in_ bits) dlast out = Ok out.
Proof. reflexivity. Qed.

(** The register after [bits -= 8] and the mask. *)
Lemma decoder_inc_arith c rest in_ bits k p :
  k = bits - 8 -> p = 2 ^ k -> 0 <= k <= 4 ->
  base32z_decoder.operator_inc (dmk (c :: rest) in_ bits)
  = if bool_decide (rest <> [])
    then base32z_decoder.load_byte (dmk rest (in_ mod p) k)
    else dmk rest (in_ mod p) k.
Proof.
  intros -> -> Hk. unfold base32z_decoder.operator_inc.
  cbn [base32z_decoder._it base32z_decoder.in_ base32z_decoder.bits tl].
  rewrite land_mask by lia. reflexivity.
Qed.

Lemma decoder_deref it in_ bits k p :
  k = bits - 8 -> p = 2 ^ k -> 0 <= k ->
  base32z_decoder.operator_deref (dmk it in_ bits) = to_char (in_ / p).
Proof.
  intros -> -> Hk. unfold base32z_decoder.operator_deref.
  cbn [base32z_decoder.in_ base32z_decoder.bits].
  rewrite Z.shiftr_div_pow2 by lia. reflexivity.
Qed.

Lemma mod_pow2_bound x k p :
  p = 2 ^ k -> 0 <= k <= 4 -> 0 <= x mod p < 16.
Proof.
  intros -> Hk.
  pose proof (pow2_pos k ltac:(lia)).
  assert (2 ^ k <= 2 ^ 4) by (apply Z.pow_le_mono_r; lia).
  change (2 ^ 4) with 16 in *.
  pose proof (Z.mod_pos_bound x (2 ^ k) ltac:(lia)). lia.
Qed.

(** The symbol under the iterator was the last one. *)
Lemma decode_step_last c in_ bits k p :
  k = bits - 8 -> p = 2 ^ k -> 0 <= k <= 4 ->
  decode_loop (S (S fuel)) (dmk [c] in_ bits) dlast out
  = Ok (out ++ [to_char (in_ / p)]).
Proof.
  intros Hk Hp Hk'. cbn [decode_loop].
  change (base32z_decoder.operator_ne (dmk [c] in_ bits) dlast) with true.
  cbv iota.
  rewrite (decoder_deref _ _ _ k p) by (assumption || lia).
  rewrite (decoder_inc_arith _ _ _ _ k p) by assumption.
  reflexivity.
Qed.

(** Three or four bits stay: one more symbol completes a byte. *)
Lemma decode_step_one c c' rest in_ bits k p bits' :
  k = bits - 8 -> p = 2 ^ k -> bits' = k + 5 -> 3 <= k <= 4 ->
  decode_loop (S fuel) (dmk (c :: c' :: rest) in_ bits) dlast out
  = decode_loop fuel (dmk (c' :: rest) ((in_ mod p) * 32 + value_of c') bits')
      dlast (out ++ [to_char (in_ / p)]).
Proof.
  intros Hk Hp -> Hk'. cbn [decode_loop].
  change (base32z_decoder.operator_ne (dmk (c :: c' :: rest) in_ bits) dlast)
    with true.
  cbv iota.
  rewrite (decoder_deref _ _ _ k p) by (assumption || lia).
  rewrite (decoder_inc_arith _ _ _ _ k p) by (assumption || lia).
  rewrite bool_decide_eq_true_2 by discriminate.
  pose proof (mod_pow2_bound in_ k p Hp ltac:(lia)).
  unfold base32z_decoder.load_byte.
  rewrite load_in_arith by (change (2 ^ 11) with 2048; lia).
  cbn [base32z_decoder._it base32z_decoder.in_ base32z_decoder.bits].
  replace (k + 5 <? 8) with false by (symmetry; apply Z.ltb_ge; lia).
  reflexivity.
Qed.

(** Fewer than three bits stay and one symbol follows: no byte is
    completed any more. *)
Lemma decode_step_one_end c c' in_ bits k p :
  k = bits - 8 -> p = 2 ^ k -> 0 <= k < 3 ->
  decode_loop (S (S fuel)) (dmk [c; c'] in_ bits) dlast out
  = Ok (out ++ [to_char (in_ / p)]).
Proof.
  intros Hk Hp Hk'. cbn [decode_loop].
  change (base32z_decoder.operator_ne (dmk [c; c'] in_ bits) dlast) with true.
  cbv iota.
  rewrite (decoder_deref _ _ _ k p) by (assumption || lia).
  rewrite (decoder_inc_arith _ _ _ _ k p) by (assumption || lia).
  rewrite bool_decide_eq_true_2 by discriminate.
  pose proof (mod_pow2_bound in_ k p Hp ltac:(lia)).
  unfold base32z_decoder.load_byte.
  rewrite load_in_arith by (change (2 ^ 11) with 2048; lia).
  cbn [base32z_decoder._it base32z_decoder.in_ base32z_decoder.bits tl].
  replace (k + 5 <? 8) with true by (symmetry; apply Z.ltb_lt; lia).
  rewrite bool_decide_eq_false_2 by (intros H'; apply H'; reflexivity).
  reflexivity.
Qed.

(** Fewer than three bits stay and two symbols follow: both are
    loaded. *)
Lemma decode_step_two c c' c'' rest in_ bits k p bits' :
  k = bits - 8 -> p = 2 ^ k -> bits' = k + 10 -> 0 <= k < 3 ->
  decode_loop (S fuel) (dmk (c :: c' :: c'' :: rest) in_ bits) dlast out
  = decode_loop fuel
      (dmk (c'' :: rest)
         (((in_ mod p) * 32 + value_of c') * 32 + value_of c'') bits')
      dlast (out ++ [to_char (in_ / p)]).
Proof.
  intros Hk Hp -> Hk'. cbn [decode_loop].
  change (base32z_decoder.operator_ne
            (dmk (c :: c' :: c'' :: rest) in_ bits) dlast) with true.
  cbv iota.
  rewrite (decoder_deref _ _ _ k p) by (assumption || lia).
  rewrite (decoder_inc_arith _ _ _ _ k p) by (assumption || lia).
  rewrite bool_decide_eq_true_2 by discriminate.
  pose proof (mod_pow2_bound in_ k p Hp ltac:(lia)).
  pose proof (value_of_range c').
  unfold base32z_decoder.load_byte.
  rewrite load_in_arith by (change (2 ^ 11) with 2048; lia).
  cbn [base32z_decoder._it base32z_decoder.in_ base32z_decoder.bits tl].
  replace (k + 5 <? 8) with true by (symmetry; apply Z.ltb_lt; lia).
  rewrite bool_decide_eq_true_2 by discriminate.
  rewrite load_in_arith
    by (cbn [deref_it hd]; change (2 ^ 11) with 2048; lia).
  cbn [deref_it hd]. f_equal. f_equal. lia.
Qed.

(** Exactly eight bits are held: after the byte the decoder is the
    fresh decoder of the remaining symbols. *)
Lemma decode_step_restart c rest in_ :
  decode_loop (S fuel) (dmk (c :: rest) in_ 8) dlast out
  = decode_loop fuel (base32z_decoder.make rest) dlast
      (out ++ [to_char in_]).
Proof.
  cbn [decode_loop].
  change (base32z_decoder.operator_ne (dmk (c :: rest) in_ 8) dlast) with true.
  cbv iota.
  rewrite (decoder_deref _ _ _ 0 1) by (reflexivity || lia).
  rewrite (decoder_inc_arith _ _ _ _ 0 1) by (reflexivity || lia).
  rewrite Z.div_1_r, Z.mod_1_r. reflexivity.
Qed.

End decoder_steps.

(** ** The decoder computes [decode_spec] *)

(** One iteration of the decoding loop, chosen by the shape of the
    iterator in the goal. *)
Ltac decoder_step :=
  match goal with
  | |- context [decode_loop (S _) (base32z_decoder.mk ?it ?x ?b) _ _] =>
      let k := eval vm_compute in (b - 8) in
      let p := eval vm_compute in (2 ^ k) in
      let b1 := eval vm_compute in (k + 5) in
      let b2 := eval vm_compute in (k + 10) in
      first
        [ rewrite (decode_step_restart _ _ _ _ x)
        | rewrite (decode_step_last _ _ _ x b k p) by side_condition
        | rewrite (decode_step_one _ _ _ _ _ x b k p b1) by side_condition
        | rewrite (decode_step_one_end _ _ _ _ x b k p) by side_condition
        | rewrite (decode_step_two _ _ _ _ _ _ x b k p b2) by side_condition ]
  end.

Ltac value_ranges :=
  repeat match goal with
         | c : byte |- _ =>
             lazymatch goal with
             | _ : 0 <= value_of c < 32 |- _ => fail
             | _ => pose proof (value_of_range c)
             end
         end.

Lemma decode_loop_spec (input : list byte) :
  forall (fuel : nat) (out : list byte),
    (length (decode_spec (map value_of input)) < fuel)%nat ->
    decode_loop fuel (base32z_decoder.make input) (base32z_decoder.make []) out
    = Ok (out ++ map to_char (decode_spec (map value_of input))).
Proof.
  pattern input. apply (chunk_ind 8); clear input;
    [lia | intros input Hshort | intros pre input Hpre IH];
    intros fuel out Hfuel.
  - destruct input as [|c1 [|c2 [|c3 [|c4 [|c5 [|c6 [|c7 [|c8 rest]]]]]]]];
      [ | | | | | | | | cbn [length] in Hshort; lia];
      value_ranges; cbn in Hfuel.
    + destruct fuel; [lia|]. rewrite app_nil_r. reflexivity.
    + destruct fuel; [lia|]. rewrite decoder_make_1, decode_stop, app_nil_r.
      reflexivity.
    + do 2 (destruct fuel as [|fuel]; [lia|]).
      rewrite decoder_make_2. do 1 decoder_step.
      cbn. f_equal. f_equal. symbols_eq.
    + do 2 (destruct fuel as [|fuel]; [lia|]).
      rewrite decoder_make_2. do 1 decoder_step.
      cbn. f_equal. f_equal. symbols_eq.
    + do 3 (destruct fuel as [|fuel]; [lia|]).
      rewrite decoder_make_2. do 2 decoder_step.
      rewrite <- !app_assoc. cbn. f_equal. f_equal. symbols_eq.
    + do 4 (destruct fuel as [|fuel]; [lia|]).
      rewrite decoder_make_2. do 3 decoder_step.
      rewrite <- !app_assoc. cbn. f_equal. f_equal. symbols_eq.
    + do 4 (destruct fuel as [|fuel]; [lia|]).
      rewrite decoder_make_2. do 3 decoder_step.
      rewrite <- !app_assoc. cbn. f_equal. f_equal. symbols_eq.
    + do 5 (destruct fuel as [|fuel]; [lia|]).
      rewrite decoder_make_2. do 4 decoder_step.
      rewrite <- !app_assoc. cbn. f_equal. f_equal. symbols_eq.
  - destruct pre as [|c1 [|c2 [|c3 [|c4 [|c5 [|c6 [|c7 [|c8 [|]]]]]]]]];
      try discriminate Hpre.
    cbn [app map]. cbn [app map decode_spec unquantum length] in Hfuel.
    value_ranges.
    do 5 (destruct fuel as [|fuel]; [lia|]).
    rewrite decoder_make_2. do 5 decoder_step.
    rewrite IH by lia.
    cbn [decode_spec unquantum]. rewrite map_app, <- !app_assoc.
    cbn [map app]. f_equal. f_equal. symbols_eq.
Qed.

(** ** Lengths and ranges of the specification functions *)

Lemma length_encode_spec (input : list byte) :
  Z.of_nat (length (encode_spec input)) = (8 * Z.of_nat (length input) + 4) / 5.
Proof.
  pattern input. apply (chunk_ind 5); clear input;
    [lia | intros input Hshort | intros pre input Hpre IH].
  - destruct input as [|b1 [|b2 [|b3 [|b4 [|b5 rest]]]]];
      [reflexivity .. | cbn [length] in Hshort; lia].
  - destruct pre as [|b1 [|b2 [|b3 [|b4 [|b5 [|]]]]]]; try discriminate Hpre.
    cbn [app encode_spec quantum length]. rewrite !Nat2Z.inj_succ, IH. zsolve.
Qed.

Lemma length_decode_spec (vs : list Z) :
  Z.of_nat (length (decode_spec vs)) = 5 * Z.of_nat (length vs) / 8.
Proof.
  pattern vs. apply (chunk_ind 8); clear vs;
    [lia | intros vs Hshort | intros pre vs Hpre IH].
  - destruct vs as [|v1 [|v2 [|v3 [|v4 [|v5 [|v6 [|v7 [|v8 rest]]]]]]]];
      [reflexivity .. | cbn [length] in Hshort; lia].
  - destruct pre as [|v1 [|v2 [|v3 [|v4 [|v5 [|v6 [|v7 [|v8 [|]]]]]]]]];
      try discriminate Hpre.
    cbn [app decode_spec unquantum length]. rewrite !Nat2Z.inj_succ, IH. zsolve.
Qed.

Lemma quantum_range (b1 b2 b3 b4 b5 : Z) :
  0 <= b1 < 256 -> 0 <= b2 < 256 -> 0 <= b3 < 256 -> 0 <= b4 < 256 ->
  0 <= b5 < 256 ->
  Forall (fun v => 0 <= v < 32) (quantum b1 b2 b3 b4 b5).
Proof.
  intros. unfold quantum. repeat (apply Forall_cons; split; [zsolve|]).
  apply Forall_nil_2.
Qed.

Lemma encode_spec_range (input : list byte) :
  Forall (fun v => 0 <= v < 32) (encode_spec input).
Proof.
  pattern input. apply (chunk_ind 5); clear input;
    [lia | intros input Hshort | intros pre input Hpre IH].
  - destruct input as [|b1 [|b2 [|b3 [|b4 [|b5 rest]]]]];
      [apply Forall_nil_2 | | | | | cbn [length] in Hshort; lia];
      cbn [encode_spec]; apply Forall_take, quantum_range;
      try apply uchar_range; lia.
  - destruct pre as [|b1 [|b2 [|b3 [|b4 [|b5 [|]]]]]]; try discriminate Hpre.
    cbn [app encode_spec]. apply Forall_app. split; [|exact IH].
    apply quantum_range; apply uchar_range.
Qed.

(** ** Decoding inverts encoding, on the specification functions *)

Lemma decode_encode_spec (input : list byte) :
  decode_spec (encode_spec input) = map uchar input.
Proof.
  pattern input. apply (chunk_ind 5); clear input;
    [lia | intros input Hshort | intros pre input Hpre IH].
  - destruct input as [|b1 [|b2 [|b3 [|b4 [|b5 rest]]]]];
      [reflexivity | | | | | cbn [length] in Hshort; lia];
      repeat match goal with b : byte |- _ =>
        lazymatch goal with
        | _ : 0 <= uchar b < 256 |- _ => fail
        | _ => pose proof (uchar_range b)
        end end;
      cbn [encode_spec quantum take firstn decode_spec unquantum map];
      repeat (apply (f_equal2 cons); [zsolve|]); reflexivity.
  - destruct pre as [|b1 [|b2 [|b3 [|b4 [|b5 [|]]]]]]; try discriminate Hpre.
    pose proof (uchar_range b1). pose proof (uchar_range b2).
    pose proof (uchar_range b3). pose proof (uchar_range b4).
    pose proof (uchar_range b5).
    cbn [app encode_spec quantum decode_spec unquantum map]. rewrite IH.
    repeat (apply (f_equal2 cons); [zsolve|]); reflexivity.
Qed.

Lemma map_value_of_symbol_of (vs : list Z) :
  Forall (fun v => 0 <= v < 32) vs -> map value_of (map symbol_of vs) = vs.
Proof.
  induction 1 as [|v vs Hv _ IH]; [reflexivity|].
  cbn [map]. rewrite value_of_symbol_of, IH by exact Hv. reflexivity.
Qed.

Lemma map_to_char_uchar (l : list byte) : map to_char (map uchar l) = l.
Proof.
  induction l as [|c l IH]; [reflexivity|].
  cbn [map]. rewrite to_char_uchar, IH. reflexivity.
Qed.

(** ** The validator *)

Lemma impossible_length_false (k : Z) :
  impossible_length (k mod 8) = false <-> valid_length k.
Proof.
  unfold impossible_length, valid_length.
  rewrite !orb_false_iff, !Z.eqb_neq. tauto.
Qed.

Lemma to_size_t_mod8 (x : Z) : to_size_t x mod 8 = x mod 8.
Proof.
  unfold to_size_t, size_t_bits. change (2 ^ 64) with 18446744073709551616.
  zsolve.
Qed.

Lemma to_size_t_range (x : Z) : 0 <= to_size_t x <= SIZE_MAX.
Proof.
  unfold to_size_t, SIZE_MAX, size_t_bits.
  change (2 ^ 64) with 18446744073709551616. zsolve.
Qed.

Lemma to_size_t_add_l (x y : Z) : to_size_t (to_size_t x + y) = to_size_t (x + y).
Proof. unfold to_size_t. apply Zplus_mod_idemp_l. Qed.

Lemma is_base32z_scan_spec (random : bool) (s : list byte) :
  forall count, 0 <= count <= SIZE_MAX ->
    is_base32z_scan random s count
    = if forallb (fun c => bool_decide (in_alphabet_nocase c)) s
      then Some (if random then count
                 else to_size_t (count + Z.of_nat (length s)))
      else None.
Proof.
  induction s as [|c s IH]; intros count Hcount.
  - cbn. rewrite Z.add_0_r, to_size_t_small by exact Hcount.
    destruct random; reflexivity.
  - cbn [is_base32z_scan forallb length]. rewrite char_test_alphabet.
    destruct (bool_decide (in_alphabet_nocase c)); cbn [negb andb]; [|reflexivity].
    rewrite IH by (destruct random; [exact Hcount | apply to_size_t_range]).
    destruct (forallb _ s); [|reflexivity].
    destruct random; [reflexivity|].
    rewrite to_size_t_add_l. do 2 f_equal. lia.
Qed.

(** [is_base32z] as the conjunction of its two checks, for both kinds
    of iterator. *)
Lemma is_base32z_spec (random : bool) (s : list byte) :
  is_base32z random s
  = forallb (fun c => bool_decide (in_alphabet_nocase c)) s
    && negb (impossible_length (Z.of_nat (length s) mod 8)).
Proof.
  unfold is_base32z.
  assert (H8 : 0 <= Z.of_nat (length s) mod 8 < 8) by (apply Z.mod_pos_bound; lia).
  destruct random.
  - rewrite to_size_t_small by (unfold SIZE_MAX, size_t_bits; lia).
    cbn [andb negb].
    rewrite is_base32z_scan_spec
      by (unfold SIZE_MAX, size_t_bits; change (2 ^ 64) with 18446744073709551616; lia).
    destruct (impossible_length _), (forallb _ s); reflexivity.
  - cbn [andb negb].
    rewrite is_base32z_scan_spec by (unfold SIZE_MAX, size_t_bits; lia).
    destruct (forallb _ s); [|reflexivity].
    rewrite Z.add_0_l, to_size_t_mod8.
    destruct (impossible_length _); reflexivity.
Qed.

Lemma forallb_alphabet (s : list byte) :
  forallb (fun c => bool_decide (in_alphabet_nocase c)) s = true
  <-> Forall in_alphabet_nocase s.
Proof.
  rewrite forallb_forall, Forall_forall.
  split; intros H c Hc.
  - apply (bool_decide_eq_true_1 _), H, list_elem_of_In, Hc.
  - apply (bool_decide_eq_true_2 _), H, list_elem_of_In, Hc.
Qed.

Lemma is_base32z_true (random : bool) (s : list byte) :
  is_base32z random s = true
  <-> Forall in_alphabet_nocase s /\ valid_length (Z.of_nat (length s)).
Proof.
  rewrite is_base32z_spec, andb_true_iff, negb_true_iff,
    forallb_alphabet, impossible_length_false.
  reflexivity.
Qed.

(** ** The wrappers compute the specification functions *)

Lemma to_base32z_spec (ndebug : bool) (input : list byte) :
  to_base32z ndebug input = Ok (map symbol_of (encode_spec input)).
Proof.
  unfold to_base32z, to_base32z_out.
  rewrite copy_encoder_spec; [reflexivity|].
  pose proof (length_encode_spec input). zsolve.
Qed.

Lemma from_base32z_spec (ndebug random : bool) (input : list byte) :
  ndebug = true \/ is_base32z random input = true ->
  from_base32z ndebug random input
  = Ok (map to_char (decode_spec (map value_of input))).
Proof.
  intros H. unfold from_base32z, from_base32z_out.
  assert (assert ndebug (is_base32z random input) = Ok tt) as ->.
  { unfold assert. destruct H as [-> | ->]; [|reflexivity].
    destruct (is_base32z random input); reflexivity. }
  cbn [mbind result_bind].
  rewrite decode_loop_spec; [reflexivity|].
  pose proof (length_decode_spec (map value_of input)) as Hl.
  rewrite length_map in Hl. zsolve.
Qed.

Lemma symbols_in_alphabet (vs : list Z) :
  Forall (fun v => 0 <= v < 32) vs -> Forall in_alphabet (map symbol_of vs).
Proof.
  intros H. apply Forall_map. eapply Forall_impl; [exact H|].
  intros v Hv. apply symbol_of_in_alphabet, Hv.
Qed.

(** The encoder's output always passes the validator. *)
Lemma is_base32z_encoding (random : bool) (input : list byte) :
  is_base32z random (map symbol_of (encode_spec input)) = true.
Proof.
  apply is_base32z_true. split.
  - eapply Forall_impl; [apply symbols_in_alphabet, encode_spec_range|].
    intros c. apply in_alphabet_nocase_of_alphabet.
  - rewrite length_map, length_encode_spec. unfold valid_length. zsolve.
Qed.

(** ** Trailing bits *)

Lemma decode_spec_quantum_app (pre : list Z) :
  length pre = 8%nat ->
  exists bytes, length bytes = 5%nat /\
    forall rest, decode_spec (pre ++ rest) = bytes ++ decode_spec rest.
Proof.
  intros Hpre.
  destruct pre as [|v1 [|v2 [|v3 [|v4 [|v5 [|v6 [|v7 [|v8 [|]]]]]]]]];
    try discriminate Hpre.
  exists (unquantum v1 v2 v3 v4 v5 v6 v7 v8). split; reflexivity.
Qed.

Lemma bits_mod8_app (pre vs : list Z) :
  length pre = 8%nat ->
  (5 * (Z.of_nat (length (pre ++ vs)) + 1)) mod 8
  = (5 * (Z.of_nat (length vs) + 1)) mod 8.
Proof.
  intros Hpre. rewrite length_app, Hpre, Nat2Z.inj_add. zsolve.
Qed.

(** The padding bits of the last symbol do not reach the output: two
    last symbols that agree above the [pad] low bits decode alike. *)
Lemma decode_spec_padding (vs : list Z) (v v' : Z) :
  let pad := (5 * (Z.of_nat (length vs) + 1)) mod 8 in
  pad < 5 -> v / 2 ^ pad = v' / 2 ^ pad ->
  decode_spec (vs ++ [v]) = decode_spec (vs ++ [v']).
Proof.
  cbv zeta. revert v v'. pattern vs. apply (chunk_ind 8); clear vs;
    [lia | intros vs Hshort | intros pre vs Hpre IH]; intros v v' Hpad Hv.
  - destruct vs as [|v1 [|v2 [|v3 [|v4 [|v5 [|v6 [|v7 [|v8 rest]]]]]]]];
      [ | | | | | | | | cbn [length] in Hshort; lia];
      try (vm_compute in Hpad; discriminate Hpad);
      match type of Hv with
      | context [2 ^ ?e] =>
          let p := eval vm_compute in (2 ^ e) in change (2 ^ e) with p in Hv
      end;
      cbn [app decode_spec unquantum take firstn];
      repeat (apply (f_equal2 cons); [zsolve|]); reflexivity.
  - rewrite bits_mod8_app in Hpad, Hv by exact Hpre.
    destruct (decode_spec_quantum_app pre Hpre) as (bytes & _ & Happ).
    rewrite <- !app_assoc, !Happ. f_equal. apply IH; assumption.
Qed.

(** A last symbol that leaves five to seven bits completes no byte:
    the output is that of the sequence without it. *)
Lemma decode_spec_discard (vs : list Z) (v : Z) :
  5 <= (5 * (Z.of_nat (length vs) + 1)) mod 8 ->
  decode_spec (vs ++ [v]) = decode_spec vs.
Proof.
  revert v. pattern vs. apply (chunk_ind 8); clear vs;
    [lia | intros vs Hshort | intros pre vs Hpre IH]; intros v Hbits.
  - destruct vs as [|v1 [|v2 [|v3 [|v4 [|v5 [|v6 [|v7 [|v8 rest]]]]]]]];
      [ | | | | | | | | cbn [length] in Hshort; lia];
      first [ exfalso; vm_compute in Hbits; apply Hbits; reflexivity
            | reflexivity ].
  - rewrite bits_mod8_app in Hbits by exact Hpre.
    destruct (decode_spec_quantum_app pre Hpre) as (bytes & _ & Happ).
    rewrite <- !app_assoc, !Happ. f_equal. apply IH; assumption.
Qed.

(** ** Composition on the specification functions *)

Lemma encode_spec_app (a b : list byte) :
  (length a mod 5 = 0)%nat ->
  encode_spec (a ++ b) = encode_spec a ++ encode_spec b.
Proof.
  pattern a. apply (chunk_ind 5); clear a;
    [lia | intros a Hshort | intros pre a Hpre IH]; intros Hlen.
  - rewrite Nat.mod_small in Hlen by exact Hshort.
    destruct a; [reflexivity | discriminate Hlen].
  - destruct pre as [|b1 [|b2 [|b3 [|b4 [|b5 [|]]]]]]; try discriminate Hpre.
    cbn [app encode_spec]. rewrite <- app_assoc. f_equal. apply IH.
    cbn [app length] in Hlen.
    replace (S (S (S (S (S (length a)))))) with (length a + 1 * 5)%nat in Hlen by lia.
    rewrite Nat.Div0.mod_add in Hlen. exact Hlen.
Qed.

Lemma decode_spec_app (vs ws : list Z) :
  (length vs mod 8 = 0)%nat ->
  decode_spec (vs ++ ws) = decode_spec vs ++ decode_spec ws.
Proof.
  pattern vs. apply (chunk_ind 8); clear vs;
    [lia | intros vs Hshort | intros pre vs Hpre IH]; intros Hlen.
  - rewrite Nat.mod_small in Hlen by exact Hshort.
    destruct vs; [reflexivity | discriminate Hlen].
  - destruct (decode_spec_quantum_app pre Hpre) as (bytes & _ & Happ).
    rewrite <- app_assoc, !Happ, <- app_assoc. f_equal. apply IH.
    rewrite length_app, Hpre in Hlen.
    replace (8 + length vs)%nat with (length vs + 1 * 8)%nat in Hlen by lia.
    rewrite Nat.Div0.mod_add in Hlen. exact Hlen.
Qed.

(** One more value adds at most one byte and changes none. *)
Lemma decode_spec_snoc (vs : list Z) (v : Z) :
  exists tail, decode_spec (vs ++ [v]) = decode_spec vs ++ tail.
Proof.
  pattern vs. apply (chunk_ind 8); clear vs;
    [lia | intros vs Hshort | intros pre vs Hpre IH].
  - destruct vs as [|v1 [|v2 [|v3 [|v4 [|v5 [|v6 [|v7 [|v8 rest]]]]]]]];
      [ | | | | | | | | cbn [length] in Hshort; lia];
      cbn [app decode_spec unquantum take firstn]; eexists; reflexivity.
  - destruct IH as [tail IH].
    destruct (decode_spec_quantum_app pre Hpre) as (bytes & _ & Happ).
    exists tail. rewrite <- !app_assoc, !Happ, IH, app_assoc. reflexivity.
Qed.

Lemma decode_spec_prefix (vs ws : list Z) :
  exists tail, decode_spec (vs ++ ws) = decode_spec vs ++ tail.
Proof.
  induction ws as [|w ws IH] using rev_ind.
  - exists []. rewrite !app_nil_r. reflexivity.
  - destruct IH as [tail IH].
    destruct (decode_spec_snoc (vs ++ ws) w) as [tail' H].
    exists (tail ++ tail'). rewrite app_assoc, H, IH, app_assoc. reflexivity.
Qed.

(** ** Canonical encodings *)

Lemma padding_bits_add8 (k : Z) : padding_bits (8 + k) = padding_bits k.
Proof. unfold padding_bits. zsolve. Qed.

Lemma zero_padding_quantum_app (pre vs : list Z) :
  length pre = 8%nat -> vs <> [] ->
  zero_padding (pre ++ vs) <-> zero_padding vs.
Proof.
  intros Hpre Hvs. unfold zero_padding.
  rewrite last_app, length_app, Hpre, Nat2Z.inj_add.
  change (Z.of_nat 8) with 8. rewrite padding_bits_add8.
  destruct (last vs) eqn:E; [reflexivity|].
  apply last_None in E. contradiction.
Qed.

Lemma encode_spec_nil_inv (input : list byte) :
  encode_spec input = [] -> input = [].
Proof.
  intros H. pose proof (length_encode_spec input) as Hl.
  rewrite H in Hl. cbn [length] in Hl.
  destruct input; [reflexivity|].
  cbn [length] in Hl. zsolve.
Qed.

(** The encoder leaves the padding bits of its last symbol zero. *)
Lemma encode_spec_zero_padding (input : list byte) :
  zero_padding (encode_spec input).
Proof.
  pattern input. apply (chunk_ind 5); clear input;
    [lia | intros input Hshort | intros pre input Hpre IH].
  - destruct input as [|b1 [|b2 [|b3 [|b4 [|b5 rest]]]]];
      [exact I | | | | | cbn [length] in Hshort; lia];
      repeat match goal with b : byte |- _ =>
        lazymatch goal with
        | _ : 0 <= uchar b < 256 |- _ => fail
        | _ => pose proof (uchar_range b)
        end end;
      unfold zero_padding;
      cbn [encode_spec quantum take firstn last length];
      match goal with
      | |- context [2 ^ ?e] =>
          let p := eval vm_compute in (2 ^ e) in change (2 ^ e) with p
      end; zsolve.
  - destruct pre as [|b1 [|b2 [|b3 [|b4 [|b5 [|]]]]]]; try discriminate Hpre.
    cbn [app encode_spec].
    destruct (encode_spec input) as [|v vs] eqn:E.
    + unfold zero_padding. rewrite app_nil_r.
      cbn [quantum last length].
      change (2 ^ padding_bits (Z.of_nat 8)) with 1. apply Z.mod_1_r.
    + apply zero_padding_quantum_app; [reflexivity | discriminate | exact IH].
Qed.

(** Encoding inverts decoding on sequences of 5-bit values of a valid
    length whose padding bits are zero. *)
Lemma encode_decode_spec (vs : list Z) :
  Forall (fun v => 0 <= v < 32) vs ->
  valid_length (Z.of_nat (length vs)) ->
  zero_padding vs ->
  encode_spec (map to_char (decode_spec vs)) = vs.
Proof.
  pattern vs. apply (chunk_ind 8); clear vs;
    [lia | intros vs Hshort | intros pre vs Hpre IH]; intros Hrange Hlen Hpad.
  - destruct vs as [|v1 [|v2 [|v3 [|v4 [|v5 [|v6 [|v7 [|v8 rest]]]]]]]];
      [reflexivity | | | | | | | | cbn [length] in Hshort; lia];
      try (exfalso; unfold valid_length in Hlen; cbn [length] in Hlen; zsolve);
      repeat match goal with
             | H : Forall _ (_ :: _) |- _ =>
                 apply Forall_cons in H; destruct H as [? H]
             end;
      unfold zero_padding in Hpad; cbn [last length] in Hpad;
      match type of Hpad with
      | context [2 ^ ?e] =>
          let p := eval vm_compute in (2 ^ e) in change (2 ^ e) with p in Hpad
      end;
      cbn [decode_spec unquantum take firstn map encode_spec quantum];
      rewrite !uchar_to_char;
      repeat (apply (f_equal2 cons); [zsolve|]); reflexivity.
  - destruct pre as [|v1 [|v2 [|v3 [|v4 [|v5 [|v6 [|v7 [|v8 [|]]]]]]]]];
      try discriminate Hpre.
    cbn [app] in *.
    repeat match goal with
           | H : Forall _ (_ :: _) |- _ =>
               apply Forall_cons in H; destruct H as [? H]
           end.
    cbn [decode_spec unquantum app map encode_spec quantum].
    rewrite !uchar_to_char.
    assert (Hrest : encode_spec (map to_char (decode_spec vs)) = vs).
    { apply IH; [assumption | |].
      - unfold valid_length in *. cbn [length] in Hlen.
        rewrite !Nat2Z.inj_succ in Hlen. zsolve.
      - destruct vs as [|w ws]; [exact I|].
        apply (zero_padding_quantum_app [v1; v2; v3; v4; v5; v6; v7; v8]);
          [reflexivity | discriminate | exact Hpad]. }
    rewrite Hrest.
    repeat (apply (f_equal2 cons); [zsolve|]); reflexivity.
Qed.

Lemma map_symbol_of_value_of (s : list byte) :
  Forall in_alphabet_nocase s ->
  map symbol_of (map value_of s) = map to_lower s.
Proof.
  induction 1 as [|c s Hc _ IH]; [reflexivity|].
  cbn [map]. rewrite symbol_of_value_of, IH by exact Hc. reflexivity.
Qed.

Lemma value_of_range_all (s : list byte) :
  Forall (fun v => 0 <= v < 32) (map value_of s).
Proof. apply Forall_map, Forall_true. intros c. apply value_of_range. Qed.

(** ** Invariants of the two iterators *)

Lemma pow2_add (a b : Z) : 0 <= a -> 0 <= b -> 2 ^ (a + b) = 2 ^ a * 2 ^ b.
Proof. intros. apply Z.pow_add_r; assumption. Qed.

Lemma pow2_le_4096 (k : Z) : 0 <= k <= 12 -> 0 < 2 ^ k <= 4096.
Proof.
  intros Hk. split; [apply pow2_pos; lia|].
  change 4096 with (2 ^ 12). apply Z.pow_le_mono_r; lia.
Qed.

Lemma shiftl_small (x k : Z) :
  0 <= k -> 0 <= x -> x * 2 ^ k < 2 ^ 16 -> to_fast16 (x ≪ k) = x * 2 ^ k.
Proof.
  intros Hk Hx Hlt. rewrite Z.shiftl_mul_pow2 by exact Hk.
  apply to_fast16_small. pose proof (pow2_pos k Hk). nia.
Qed.

Lemma encoder_invariant_make (input : list byte) :
  encoder_invariant (base32z_encoder.make input).
Proof.
  unfold encoder_invariant, base32z_encoder.make.
  destruct input as [|b input]; cbn.
  - split; [lia | left; reflexivity].
  - pose proof (uchar_range b). change (2 ^ 8) with 256. cbn in *. lia.
Qed.

Lemma encoder_invariant_inc (ndebug : bool) (e : base32z_encoder.t) :
  encoder_invariant e ->
  base32z_encoder.operator_ne e (base32z_encoder.make []) = true ->
  exists e',
    base32z_encoder.operator_inc ndebug e = Ok e' /\ encoder_invariant e'.
Proof.
  destruct e as [it bits r]. unfold encoder_invariant.
  cbn [base32z_encoder.r base32z_encoder.bits base32z_encoder._it].
  intros [Hr Hbits] Hne.
  assert (H5 : 5 <= bits <= 12).
  { destruct it as [|b it]; [|exact Hbits].
    unfold base32z_encoder.operator_ne, base32z_encoder.operator_eq in Hne.
    cbn in Hne. destruct Hbits as [-> | ->]; [discriminate Hne | lia]. }
  unfold base32z_encoder.operator_inc.
  cbn [base32z_encoder.r base32z_encoder.bits base32z_encoder._it].
  replace (5 <=? bits) with true by (symmetry; apply Z.leb_le; lia).
  cbn [assert mbind result_bind].
  rewrite land_mask by lia.
  set (k := bits - 5). assert (Hk : 0 <= k <= 7) by (unfold k; lia).
  pose proof (pow2_le_4096 k ltac:(lia)) as Hp.
  pose proof (Z.mod_pos_bound r (2 ^ k) ltac:(lia)) as Hm.
  destruct (Z.ltb_spec k 5) as [Hlt | Hge].
  - assert (Hp16 : 2 ^ k <= 16)
      by (change 16 with (2 ^ 4); apply Z.pow_le_mono_r; lia).
    destruct it as [|b [|c rest]]; cbn [andb tl].
    + rewrite bool_decide_eq_false_2 by (intros H; apply H; reflexivity).
      eexists. split; [reflexivity|]. cbn.
      assert (k = 0) as -> by (destruct Hbits; lia).
      change (2 ^ 0) with 1 in *. split; [lia | left; reflexivity].
    + rewrite bool_decide_eq_true_2 by discriminate.
      rewrite bool_decide_eq_false_2 by (intros H; apply H; reflexivity).
      assert (Hpq : 2 ^ k * 2 ^ (5 - k) = 32).
      { rewrite <- pow2_add by lia. replace (k + (5 - k)) with 5 by lia.
        reflexivity. }
      pose proof (pow2_pos (5 - k) ltac:(lia)).
      destruct (Z.ltb_spec 0 k).
      * rewrite shiftl_small by (change (2 ^ 16) with 65536; nia || lia).
        eexists. split; [reflexivity|].
        cbn [base32z_encoder.r base32z_encoder.bits base32z_encoder._it].
        rewrite bool_decide_eq_false_2 by (intros H'; apply H'; reflexivity).
        change (2 ^ 5) with 32. split; [nia | right; reflexivity].
      * eexists. split; [reflexivity|].
        cbn [base32z_encoder.r base32z_encoder.bits base32z_encoder._it].
        rewrite bool_decide_eq_false_2 by (intros H'; apply H'; reflexivity).
        split; [lia | left; lia].
    + rewrite !bool_decide_eq_true_2 by discriminate.
      cbn [deref_it hd]. pose proof (uchar_range c).
      rewrite shiftl_small
        by (change (2 ^ 16) with 65536; change (2 ^ 8) with 256; nia || lia).
      rewrite lor_shifted by (change (2 ^ 8) with 256; lia).
      eexists. split; [reflexivity|].
      cbn [base32z_encoder.r base32z_encoder.bits base32z_encoder._it].
      rewrite bool_decide_eq_true_2 by discriminate.
      rewrite pow2_add by lia. change (2 ^ 8) with 256.
      split; [nia | lia].
  - cbn [andb]. eexists. split; [reflexivity|].
    cbn [base32z_encoder.r base32z_encoder.bits base32z_encoder._it].
    split; [lia|].
    destruct it as [|b it].
    + exfalso. destruct Hbits; lia.
    + rewrite bool_decide_eq_true_2 by discriminate. lia.
Qed.

(** A symbol is read from inside the forward table. *)
Lemma encoder_invariant_index (e : base32z_encoder.t) :
  encoder_invariant e -> 5 <= base32z_encoder.bits e ->
  0 <= base32z_encoder.r e ≫ (base32z_encoder.bits e - 5) < 32.
Proof.
  destruct e as [it bits r]. unfold encoder_invariant.
  cbn [base32z_encoder.r base32z_encoder.bits base32z_encoder._it].
  intros [Hr Hbits] H5.
  rewrite Z.shiftr_div_pow2 by lia.
  pose proof (pow2_pos (bits - 5) ltac:(lia)).
  assert (2 ^ bits = 32 * 2 ^ (bits - 5)).
  { replace bits with (5 + (bits - 5)) at 1 by lia.
    rewrite pow2_add by lia. reflexivity. }
  split; [apply Z.div_pos; lia|].
  apply Z.div_lt_upper_bound; lia.
Qed.

Lemma decoder_invariant_make (input : list byte) :
  decoder_invariant (length input) (base32z_decoder.make input) 0.
Proof.
  unfold decoder_invariant, loaded.
  destruct input as [|c [|c' rest]].
  - cbn. lia.
  - rewrite decoder_make_1. pose proof (value_of_range c). cbn.
    change (2 ^ 5) with 32. lia.
  - rewrite decoder_make_2.
    pose proof (value_of_range c). pose proof (value_of_range c').
    cbn [base32z_decoder.in_ base32z_decoder.bits base32z_decoder._it].
    rewrite bool_decide_eq_true_2 by discriminate.
    change (2 ^ 10) with 1024. cbn [length]. lia.
Qed.

Lemma decoder_invariant_inc (total : nat) (d : base32z_decoder.t) (j : Z) :
  decoder_invariant total d j ->
  base32z_decoder._it d <> [] ->
  decoder_invariant total (base32z_decoder.operator_inc d) (j + 1).
Proof.
  destruct d as [it x bits]. unfold decoder_invariant, loaded.
  cbn [base32z_decoder.in_ base32z_decoder.bits base32z_decoder._it].
  intros (Hx & Hlen & Hcount & Hbits) Hit.
  destruct it as [|c rest]; [contradiction|].
  rewrite bool_decide_eq_true_2 in Hcount, Hbits by discriminate.
  remember (bits - 8) as k eqn:Hkdef.
  assert (Hk : 0 <= k <= 4) by lia.
  rewrite (decoder_inc_arith c rest x bits k (2 ^ k)) by (reflexivity || lia).
  pose proof (mod_pow2_bound x k (2 ^ k) eq_refl Hk) as Hm16.
  pose proof (pow2_pos k ltac:(lia)) as Hp.
  pose proof (Z.mod_pos_bound x (2 ^ k) ltac:(lia)) as Hm.
  cbn [length] in Hlen, Hcount.
  destruct rest as [|c' rest].
  - rewrite bool_decide_eq_false_2 by (intros H; apply H; reflexivity).
    cbn [base32z_decoder.in_ base32z_decoder.bits base32z_decoder._it].
    rewrite bool_decide_eq_false_2 by (intros H; apply H; reflexivity).
    cbn [length] in *. repeat split; lia.
  - rewrite bool_decide_eq_true_2 by discriminate.
    unfold base32z_decoder.load_byte.
    rewrite load_in_arith by (change (2 ^ 11) with 2048; lia).
    cbn [base32z_decoder.in_ base32z_decoder.bits base32z_decoder._it
         deref_it hd tl].
    pose proof (value_of_range c') as Hc'.
    assert (H32 : 2 ^ (k + 5) = 2 ^ k * 32) by (rewrite pow2_add by lia; reflexivity).
    destruct (Z.ltb_spec (k + 5) 8) as [Hlt | Hge].
    + destruct rest as [|c'' rest].
      * rewrite bool_decide_eq_false_2 by (intros H; apply H; reflexivity).
        cbn [base32z_decoder.in_ base32z_decoder.bits base32z_decoder._it].
        rewrite bool_decide_eq_false_2 by (intros H; apply H; reflexivity).
        cbn [length] in *. rewrite H32. repeat split; try lia; nia.
      * rewrite bool_decide_eq_true_2 by discriminate.
        rewrite load_in_arith by (change (2 ^ 11) with 2048; lia).
        cbn [base32z_decoder.in_ base32z_decoder.bits base32z_decoder._it
             deref_it hd].
        rewrite bool_decide_eq_true_2 by discriminate.
        pose proof (value_of_range c'') as Hc''.
        assert (H1024 : 2 ^ (k + 5 + 5) = 2 ^ k * 1024)
          by (rewrite !pow2_add by lia; change (2 ^ 5) with 32; lia).
        cbn [length] in *. rewrite H1024. repeat split; try lia; nia.
    + cbn [base32z_decoder.in_ base32z_decoder.bits base32z_decoder._it].
      rewrite bool_decide_eq_true_2 by discriminate.
      cbn [length] in *. rewrite H32. repeat split; try lia; nia.
Qed.

(** A byte leaves the register whole: no bit is cut by the cast. *)
Lemma decoder_invariant_byte (total : nat) (d : base32z_decoder.t) (j : Z) :
  decoder_invariant total d j ->
  base32z_decoder._it d <> [] ->
  0 <= base32z_decoder.in_ d ≫ (base32z_decoder.bits d - 8) < 256.
Proof.
  destruct d as [it x bits]. unfold decoder_invariant.
  cbn [base32z_decoder.in_ base32z_decoder.bits base32z_decoder._it].
  intros (Hx & _ & _ & Hbits) Hit.
  rewrite bool_decide_eq_true_2 in Hbits by exact Hit.
  rewrite Z.shiftr_div_pow2 by lia.
  pose proof (pow2_pos (bits - 8) ltac:(lia)).
  assert (2 ^ bits = 256 * 2 ^ (bits - 8)).
  { replace bits with (8 + (bits - 8)) at 1 by lia.
    rewrite pow2_add by lia. reflexivity. }
  split; [apply Z.div_pos; lia|].
  apply Z.div_lt_upper_bound; lia.
Qed.

(** ** The pointer decoder stands for the list decoder *)

Lemma range_length (mem : list byte) (i e : nat) :
  (e <= length mem)%nat -> length (range mem i e) = (e - i)%nat.
Proof.
  intros He. unfold range. rewrite length_take, length_drop. lia.
Qed.

Lemma range_cons (mem : list byte) (i e : nat) :
  (i < e)%nat -> (e <= length mem)%nat ->
  range mem i e = read mem i :: range mem (S i) e.
Proof.
  intros Hi He. unfold range, read.
  destruct (lookup_lt_is_Some_2 mem i ltac:(lia)) as [x Hx].
  rewrite Hx, (drop_S _ _ _ Hx).
  replace (e - i)%nat with (S (e - S i)) by lia. reflexivity.
Qed.

Lemma range_nil_iff (mem : list byte) (i e : nat) :
  (i <= e)%nat -> (e <= length mem)%nat -> range mem i e <> [] <-> i <> e.
Proof.
  intros Hi He. rewrite <- length_zero_iff_nil, range_length by exact He. lia.
Qed.

Lemma range_insert_lt (mem : list byte) (w i e : nat) (x : byte) :
  (w < i)%nat -> range (<[w := x]> mem) i e = range mem i e.
Proof.
  intros Hw. unfold range. rewrite drop_insert_lt by exact Hw. reflexivity.
Qed.

Ltac fields :=
  cbn [base32z_decoder_ptr._it base32z_decoder_ptr._end
       base32z_decoder_ptr.in_ base32z_decoder_ptr.bits
       base32z_decoder._it base32z_decoder.in_ base32z_decoder.bits] in *.

Section pointer_decoder.
Variable mem : list byte.

Lemma decoder_of_load_in (d : base32z_decoder_ptr.t) :
  (base32z_decoder_ptr._it d < base32z_decoder_ptr._end d)%nat ->
  (base32z_decoder_ptr._end d <= length mem)%nat ->
  decoder_of mem (base32z_decoder_ptr.load_in mem d)
  = base32z_decoder.load_in (decoder_of mem d).
Proof.
  destruct d as [i e x b]. fields. intros Hi He.
  unfold decoder_of, base32z_decoder_ptr.load_in, base32z_decoder.load_in.
  fields. rewrite (range_cons mem i e) by assumption. reflexivity.
Qed.

Lemma decoder_of_load_byte (d : base32z_decoder_ptr.t) :
  (base32z_decoder_ptr._it d < base32z_decoder_ptr._end d)%nat ->
  (base32z_decoder_ptr._end d <= length mem)%nat ->
  decoder_of mem (base32z_decoder_ptr.load_byte mem d)
  = base32z_decoder.load_byte (decoder_of mem d).
Proof.
  intros Hi He.
  unfold base32z_decoder_ptr.load_byte, base32z_decoder.load_byte.
  rewrite <- decoder_of_load_in by assumption.
  destruct d as [i e x b]. fields.
  unfold base32z_decoder_ptr.load_in, decoder_of. fields.
  destruct (_ <? 8); [|reflexivity].
  rewrite (range_cons mem i e) by assumption. cbn [tl].
  destruct (decide (S i = e)) as [Heq | Hne].
  - rewrite bool_decide_eq_false_2 by (intros H; apply H; exact Heq).
    rewrite bool_decide_eq_false_2
      by (intros H; apply range_nil_iff in H; [contradiction | lia | exact He]).
    reflexivity.
  - rewrite bool_decide_eq_true_2 by exact Hne.
    rewrite bool_decide_eq_true_2 by (apply range_nil_iff; [lia | exact He | exact Hne]).
    apply (decoder_of_load_in (base32z_decoder_ptr.mk (S i) e _ _)); fields; lia.
Qed.

Lemma decoder_of_make (begin end_ : nat) :
  (begin <= end_)%nat -> (end_ <= length mem)%nat ->
  decoder_of mem (base32z_decoder_ptr.make mem begin end_)
  = base32z_decoder.make (range mem begin end_).
Proof.
  intros Hb He. unfold base32z_decoder_ptr.make, base32z_decoder.make.
  destruct (decide (begin = end_)) as [Heq | Hne].
  - rewrite bool_decide_eq_false_2 by (intros H; apply H; exact Heq).
    rewrite bool_decide_eq_false_2
      by (intros H; apply range_nil_iff in H; [contradiction | lia | exact He]).
    reflexivity.
  - rewrite bool_decide_eq_true_2 by exact Hne.
    rewrite bool_decide_eq_true_2 by (apply range_nil_iff; assumption).
    apply (decoder_of_load_byte (base32z_decoder_ptr.mk begin end_ 0 0)); fields; lia.
Qed.

Lemma decoder_of_inc (d : base32z_decoder_ptr.t) :
  (base32z_decoder_ptr._it d < base32z_decoder_ptr._end d)%nat ->
  (base32z_decoder_ptr._end d <= length mem)%nat ->
  decoder_of mem (base32z_decoder_ptr.operator_inc mem d)
  = base32z_decoder.operator_inc (decoder_of mem d).
Proof.
  intros Hi He.
  unfold base32z_decoder_ptr.operator_inc, base32z_decoder.operator_inc.
  destruct d as [i e x b]. fields. unfold decoder_of. fields.
  rewrite (range_cons mem i e) by assumption. cbn [tl].
  destruct (decide (S i = e)) as [Heq | Hne].
  - rewrite bool_decide_eq_false_2 by (intros H; apply H; exact Heq).
    rewrite bool_decide_eq_false_2
      by (intros H; apply range_nil_iff in H; [contradiction | lia | exact He]).
    reflexivity.
  - rewrite bool_decide_eq_true_2 by exact Hne.
    rewrite bool_decide_eq_true_2 by (apply range_nil_iff; [lia | exact He | exact Hne]).
    apply (decoder_of_load_byte (base32z_decoder_ptr.mk (S i) e _ _)); fields; lia.
Qed.

Lemma decoder_of_ne (d : base32z_decoder_ptr.t) :
  (base32z_decoder_ptr._it d <= base32z_decoder_ptr._end d)%nat ->
  (base32z_decoder_ptr._end d <= length mem)%nat ->
  base32z_decoder_ptr.operator_ne d (base32z_decoder_ptr.end_ d)
  = base32z_decoder.operator_ne (decoder_of mem d) (base32z_decoder.make []).
Proof.
  destruct d as [i e x b]. fields. intros Hi He.
  unfold base32z_decoder_ptr.operator_ne, base32z_decoder.operator_ne,
    base32z_decoder_ptr.end_, decoder_of.
  fields. change (length (base32z_decoder._it (base32z_decoder.make []))) with 0%nat.
  rewrite range_length by exact He. f_equal.
  destruct (Nat.eqb_spec i e), (Nat.eqb_spec (e - i) 0); reflexivity || lia.
Qed.

(** Advancing moves the pointer forward, never past the end, and
    keeps the end. *)
Lemma pointer_inc_bounds (d : base32z_decoder_ptr.t) :
  (base32z_decoder_ptr._it d < base32z_decoder_ptr._end d)%nat ->
  let d' := base32z_decoder_ptr.operator_inc mem d in
  base32z_decoder_ptr._end d' = base32z_decoder_ptr._end d /\
  (base32z_decoder_ptr._it d < base32z_decoder_ptr._it d'
   <= base32z_decoder_ptr._end d)%nat.
Proof.
  destruct d as [i e x b]. fields. intros Hi.
  unfold base32z_decoder_ptr.operator_inc, base32z_decoder_ptr.load_byte,
    base32z_decoder_ptr.load_in.
  fields.
  repeat (case_bool_decide || destruct (_ <? 8)); fields; lia.
Qed.

End pointer_decoder.

(** The output of the list loop does not depend on what the output
    held before. *)
Lemma decode_loop_acc (fuel : nat) :
  forall d last acc,
    decode_loop fuel d last acc
    = r ← decode_loop fuel d last []; Ok (acc ++ r).
Proof.
  induction fuel as [|fuel IH]; intros d last acc; [reflexivity|].
  cbn [decode_loop].
  destruct (base32z_decoder.operator_ne d last).
  - rewrite IH. rewrite (IH _ _ ([] ++ _)).
    destruct (decode_loop fuel _ last []); cbn; [|reflexivity..].
    rewrite <- app_assoc. reflexivity.
  - cbn. rewrite app_nil_r. reflexivity.
Qed.

(** While symbols remain, the reader is more than j symbols ahead of
    the j bytes written. *)
Lemma decoder_invariant_ahead (total : nat) (d : base32z_decoder.t) (j : nat) :
  decoder_invariant total d (Z.of_nat j) ->
  base32z_decoder._it d <> [] ->
  (j + length (base32z_decoder._it d) < total)%nat.
Proof.
  unfold decoder_invariant, loaded. intros (_ & Hlen & Hcount & Hbits) Hit.
  rewrite bool_decide_eq_true_2 in Hcount, Hbits by exact Hit. lia.
Qed.

Lemma take_S_insert (mem : list byte) (w : nat) (x : byte) :
  (w < length mem)%nat -> take (S w) (<[w := x]> mem) = take w mem ++ [x].
Proof.
  intros Hw. rewrite (take_S_r _ _ x) by (apply list_lookup_insert_eq, Hw).
  rewrite take_insert_ge by lia. reflexivity.
Qed.

Section in_place.
Variables (begin end_ out : nat).
Hypothesis Hrange : (begin <= end_)%nat.
Hypothesis Hout : (out <= begin)%nat.

Lemma decode_loop_ptr_sim (fuel : nat) :
  forall (mem : list byte) (d : base32z_decoder_ptr.t) (j : nat) (new : list byte),
    (end_ <= length mem)%nat ->
    base32z_decoder_ptr._end d = end_ ->
    (begin <= base32z_decoder_ptr._it d <= end_)%nat ->
    decoder_invariant (end_ - begin) (decoder_of mem d) (Z.of_nat j) ->
    decode_loop fuel (decoder_of mem d) (base32z_decoder.make []) [] = Ok new ->
    decode_loop_ptr fuel mem d (base32z_decoder_ptr.end_ d) (out + j)
    = Ok (take (out + j) mem ++ new ++ drop (out + j + length new) mem,
          (out + j + length new)%nat).
Proof using Hrange Hout.
  induction fuel as [|fuel IH]; intros mem d j new Hmem Hend Hit Hinv Hloop;
    [discriminate Hloop|].
  cbn [decode_loop decode_loop_ptr] in *.
  rewrite (decoder_of_ne mem) by lia.
  destruct (base32z_decoder.operator_ne (decoder_of mem d) _) eqn:Hne.
  - assert (Hnonempty : base32z_decoder._it (decoder_of mem d) <> []).
    { intros H. unfold base32z_decoder.operator_ne in Hne.
      rewrite H in Hne. discriminate Hne. }
    assert (Hlt : (base32z_decoder_ptr._it d < end_)%nat).
    { unfold decoder_of in Hnonempty. fields.
      apply range_nil_iff in Hnonempty; lia. }
    pose proof (decoder_invariant_ahead _ _ _ Hinv Hnonempty) as Hahead.
    unfold decoder_of in Hahead. fields. rewrite range_length in Hahead by lia.
    destruct (pointer_inc_bounds mem d ltac:(lia)) as [Hend' Hit'].
    cbv zeta in Hend', Hit'.
    rewrite decode_loop_acc in Hloop.
    destruct (decode_loop fuel _ _ []) as [new'| |] eqn:Hloop';
      cbn in Hloop; try discriminate Hloop.
    injection Hloop as <-.
    set (byte_ := base32z_decoder_ptr.operator_deref d).
    remember (base32z_decoder_ptr.operator_inc mem d) as d' eqn:Hd'.
    set (mem' := <[(out + j)%nat := byte_]> mem).
    assert (Hview : decoder_of mem' d' = base32z_decoder.operator_inc (decoder_of mem d)).
    { unfold decoder_of, mem'. rewrite range_insert_lt by lia.
      rewrite Hd'. apply (decoder_of_inc mem d); lia. }
    replace (base32z_decoder_ptr.end_ d) with (base32z_decoder_ptr.end_ d')
      by (unfold base32z_decoder_ptr.end_; rewrite Hend'; reflexivity).
    replace (S (out + j)) with (out + S j)%nat by lia.
    rewrite (IH mem' d' (S j) new').
    + f_equal. unfold mem'. f_equal; [|cbn [length]; lia].
      replace (out + S j)%nat with (S (out + j)) by lia.
      rewrite take_S_insert by lia.
      rewrite drop_insert_lt by lia.
      rewrite <- !app_assoc. cbn [app length].
      f_equal. apply (f_equal2 cons); [reflexivity|].
      do 2 f_equal. lia.
    + unfold mem'. rewrite length_insert. exact Hmem.
    + lia.
    + lia.
    + rewrite Hview, Nat2Z.inj_succ. apply decoder_invariant_inc; assumption.
    + rewrite Hview. exact Hloop'.
  - injection Hloop as <-. cbn [app length].
    rewrite Nat.add_0_r, take_drop. reflexivity.
Qed.

End in_place.

(** * The size functions *)

Lemma SIZE_MAX_value : SIZE_MAX = 18446744073709551615.
Proof. reflexivity. Qed.

(** Without wrap-around [to_base32z_size] is [(8n + 4) / 5]. *)
Lemma to_base32z_size_small (n : Z) :
  0 <= n -> 8 * n + 4 <= SIZE_MAX -> to_base32z_size n = (8 * n + 4) / 5.
Proof.
  intros Hn Hmax. unfold to_base32z_size.
  rewrite (to_size_t_small (n * 8)) by lia.
  rewrite to_size_t_small by lia.
  f_equal. lia.
Qed.

(** Without wrap-around [from_base32z_size] works on [5k] itself. *)
Lemma from_base32z_size_small (k : Z) :
  0 <= k -> 5 * k <= SIZE_MAX ->
  from_base32z_size k = if (5 * k) mod 8 <? 5 then 5 * k / 8 else 0.
Proof.
  intros Hk Hmax. unfold from_base32z_size.
  rewrite to_size_t_small by lia.
  replace (k * 5) with (5 * k) by lia. reflexivity.
Qed.

Lemma valid_length_bits (k : Z) : (k * 5) mod 8 < 5 <-> valid_length k.
Proof. unfold valid_length. zsolve. Qed.

(** C7, as amended: for every byte count n whose bit count fits a
    [size_t] with the rounding term (8n + 4 <= SIZE_MAX),
    [to_base32z_size n] is the ceiling of 8n / 5; and
    [to_base32z_size 2 = 4]. *)
Theorem to_base32z_size_ceiling (n : Z) :
  0 <= n -> 8 * n + 4 <= SIZE_MAX ->
  is_ceiling (n * 8) 5 (to_base32z_size n) /\ to_base32z_size 2 = 4.
Proof.
  intros Hn Hmax. split; [|reflexivity].
  rewrite to_base32z_size_small by assumption.
  unfold is_ceiling. zsolve.
Qed.

Lemma to_base32z_size_ceiling_witness :
  is_ceiling (3 * 8) 5 (to_base32z_size 3) /\ to_base32z_size 2 = 4.
Proof.
  apply (to_base32z_size_ceiling 3); [lia | rewrite SIZE_MAX_value; lia].
Defined.

(** C7 as stated fails where [size_t] wraps: for the byte count 2^61
    the product [byte_size * 8] is 2^64, which wraps to 0, and the
    function returns 0. *)
Lemma to_base32z_size_wraps :
  0 <= 2 ^ 61 <= SIZE_MAX /\
  to_base32z_size (2 ^ 61) = 0 /\
  ~ is_ceiling (2 ^ 61 * 8) 5 (to_base32z_size (2 ^ 61)).
Proof.
  split; [|split].
  - vm_compute. split; discriminate.
  - reflexivity.
  - unfold is_ceiling. change (to_base32z_size (2 ^ 61)) with 0.
    change (2 ^ 61) with 2305843009213693952. lia.
Qed.

(** C8, as amended: for every symbol count k (a [size_t]) the length
    is valid, that is (5k) mod 8 < 5, exactly when k mod 8 is none of
    1, 3 and 6; [from_base32z_size k] is 0 when it is not valid; when
    it is valid the function returns bits / 8 for the [size_t] product
    bits = k * 5, which is 5k / 8 whenever 5k <= SIZE_MAX; and
    [from_base32z_size 4 = 2]. *)
Theorem from_base32z_size_spec (k : Z) :
  0 <= k <= SIZE_MAX ->
  ((k * 5) mod 8 < 5 <-> valid_length k) /\
  (~ valid_length k -> from_base32z_size k = 0) /\
  (valid_length k -> from_base32z_size k = to_size_t (k * 5) / 8) /\
  (valid_length k -> k * 5 <= SIZE_MAX -> from_base32z_size k = k * 5 / 8) /\
  from_base32z_size 4 = 2.
Proof.
  intros Hk.
  assert (Hbits : to_size_t (k * 5) mod 8 = (k * 5) mod 8) by apply to_size_t_mod8.
  split; [apply valid_length_bits|].
  split; [|split; [|split; [|reflexivity]]].
  - intros Hinv. unfold from_base32z_size. cbv zeta. rewrite Hbits.
    rewrite <- valid_length_bits in Hinv.
    destruct (Z.ltb_spec ((k * 5) mod 8) 5); [contradiction | reflexivity].
  - intros Hval. unfold from_base32z_size. cbv zeta. rewrite Hbits.
    rewrite <- valid_length_bits in Hval.
    destruct (Z.ltb_spec ((k * 5) mod 8) 5); [reflexivity | lia].
  - intros Hval Hmax. unfold from_base32z_size. cbv zeta. rewrite Hbits.
    rewrite <- valid_length_bits in Hval.
    rewrite to_size_t_small by lia.
    destruct (Z.ltb_spec ((k * 5) mod 8) 5); [reflexivity | lia].
Qed.

Lemma from_base32z_size_spec_witness :
  from_base32z_size 7 = 7 * 5 / 8 /\ from_base32z_size 6 = 0.
Proof.
  split.
  - apply (from_base32z_size_spec 7); [rewrite SIZE_MAX_value; lia | |].
    + unfold valid_length. repeat split; discriminate.
    + rewrite SIZE_MAX_value. lia.
  - apply (from_base32z_size_spec 6); [rewrite SIZE_MAX_value; lia |].
    unfold valid_length. intros (_ & _ & H). apply H. reflexivity.
Defined.

(** C8 as stated fails where [size_t] wraps: the symbol count 2^62 is
    valid (a multiple of 8), 5k / 8 is 5 * 2^59, and the function
    returns 2^59. *)
Lemma from_base32z_size_wraps :
  0 <= 2 ^ 62 <= SIZE_MAX /\
  from_base32z_size (2 ^ 62) = 2 ^ 59 /\
  ~ ((2 ^ 62 * 5) mod 8 < 5 -> from_base32z_size (2 ^ 62) = 2 ^ 62 * 5 / 8).
Proof.
  split; [|split].
  - vm_compute. split; discriminate.
  - reflexivity.
  - intros H. assert (Hlt : (2 ^ 62 * 5) mod 8 < 5) by reflexivity.
    apply H in Hlt. vm_compute in Hlt. discriminate Hlt.
Qed.

(** C9, as amended: for every byte count n with 8n + 4 <= SIZE_MAX the
    encoded length [to_base32z_size n] is a valid length and
    [from_base32z_size] maps it back to n. *)
Theorem size_functions_consistent (n : Z) :
  0 <= n -> 8 * n + 4 <= SIZE_MAX ->
  (to_base32z_size n * 5) mod 8 < 5 /\
  from_base32z_size (to_base32z_size n) = n.
Proof.
  intros Hn Hmax.
  rewrite to_base32z_size_small by assumption.
  assert (Hk : 0 <= (8 * n + 4) / 5) by zsolve.
  assert (Hk5 : 5 * ((8 * n + 4) / 5) <= SIZE_MAX) by zsolve.
  split; [zsolve|].
  rewrite from_base32z_size_small by assumption.
  destruct (Z.ltb_spec ((5 * ((8 * n + 4) / 5)) mod 8) 5); zsolve.
Qed.

Lemma size_functions_consistent_witness :
  (to_base32z_size 3 * 5) mod 8 < 5 /\
  from_base32z_size (to_base32z_size 3) = 3.
Proof.
  apply (size_functions_consistent 3); [lia | rewrite SIZE_MAX_value; lia].
Defined.

(** C9 as stated fails where [size_t] wraps: the byte count 2^61 has
    the encoded size 0, which maps back to 0. *)
Lemma size_functions_consistent_wraps :
  0 <= 2 ^ 61 <= SIZE_MAX /\
  from_base32z_size (to_base32z_size (2 ^ 61)) <> 2 ^ 61.
Proof.
  split.
  - vm_compute. split; discriminate.
  - vm_compute. discriminate.
Qed.

(** ** Literals *)

Lemma from_base32z_out_valid (ndebug : bool) (str : list byte) :
  is_base32z true str = true ->
  from_base32z_out ndebug true str []
  = Ok (map to_char (decode_spec (map value_of str))).
Proof. intros H. apply (from_base32z_spec ndebug true str). right. exact H. Qed.

Lemma literal_size (str : list byte) :
  5 * Z.of_nat (length str) <= SIZE_MAX ->
  is_base32z true str = true ->
  Z.to_nat (to_size_t (from_base32z_size (Z.of_nat (length str)) + 1))
  = S (length (decode_spec (map value_of str))).
Proof.
  intros Hmax Hvalid.
  apply is_base32z_true in Hvalid. destruct Hvalid as [_ Hlen].
  unfold valid_length in Hlen.
  pose proof (length_decode_spec (map value_of str)) as Hl.
  rewrite length_map in Hl.
  rewrite from_base32z_size_small by lia.
  replace (if (5 * Z.of_nat (length str)) mod 8 <? 5
           then 5 * Z.of_nat (length str) / 8 else 0)
    with (Z.of_nat (length (decode_spec (map value_of str))))
    by (rewrite Hl; destruct (Z.ltb_spec ((5 * Z.of_nat (length str)) mod 8) 5);
        [reflexivity | zsolve]).
  rewrite to_size_t_small by (rewrite Hl; rewrite SIZE_MAX_value in *; zsolve).
  lia.
Qed.

(** * The codec *)

(** C1: for every byte sequence, in a debug and in a release build,
    encoding succeeds and decoding its result gives the sequence
    back. *)
Theorem base32z_round_trip (ndebug random : bool) (input : list byte) :
  exists symbols,
    to_base32z ndebug input = Ok symbols /\
    from_base32z ndebug random symbols = Ok input.
Proof.
  exists (map symbol_of (encode_spec input)). split.
  - apply to_base32z_spec.
  - rewrite from_base32z_spec by (right; apply is_base32z_encoding).
    rewrite map_value_of_symbol_of by apply encode_spec_range.
    rewrite decode_encode_spec, map_to_char_uchar. reflexivity.
Qed.

(** C2: for every byte sequence [to_base32z] yields a string whose
    characters are all among the 32 lower-case symbols, and of exactly
    [to_base32z_size n] characters for the length n of the sequence;
    the length is stated for the sequences a program can hold, those
    of fewer than 2^61 bytes, that is 8n + 4 <= SIZE_MAX.  The values
    0, 5, 17, 20 and 31 are written as y, f, t, w and 9; the empty
    sequence encodes to the empty string and the single byte 0x00 to
    "yy". *)
Theorem to_base32z_length_alphabet (ndebug : bool) :
  (forall input : list byte,
     exists symbols,
       to_base32z ndebug input = Ok symbols /\
       Forall (fun c => c ∈ chars "ybndrfg8ejkmcpqxot1uwisza345h769") symbols /\
       (8 * Z.of_nat (length input) + 4 <= SIZE_MAX ->
        Z.of_nat (length symbols) = to_base32z_size (Z.of_nat (length input)))) /\
  map symbol_of [0; 5; 17; 20; 31] = chars "yftw9" /\
  to_base32z ndebug [] = Ok [] /\
  to_base32z ndebug [x00] = Ok (chars "yy").
Proof.
  split; [|split; [reflexivity | split; destruct ndebug; reflexivity]].
  intros input. exists (map symbol_of (encode_spec input)).
  split; [apply to_base32z_spec|]. split.
  - apply symbols_in_alphabet, encode_spec_range.
  - intros Hmax. rewrite length_map, length_encode_spec.
    rewrite to_base32z_size_small by lia. reflexivity.
Qed.

Lemma to_base32z_length_alphabet_witness :
  exists symbols,
    to_base32z true [xff; xff] = Ok symbols /\
    Z.of_nat (length symbols) = to_base32z_size 2.
Proof.
  destruct (proj1 (to_base32z_length_alphabet true) [xff; xff])
    as (symbols & Hs & _ & Hlen).
  exists symbols. split; [exact Hs|].
  apply Hlen. vm_compute. discriminate.
Defined.

(** C3: [is_base32z] holds exactly when every character is in the
    alphabet, whatever its case, and the length modulo 8 is none of
    1, 3 and 6; it rejects "9990!"; and it rejects every string of a
    length congruent to 1 modulo 8, valid characters or not. *)
Theorem is_base32z_iff (random : bool) :
  (forall s : list byte,
     is_base32z random s = true <->
     Forall in_alphabet_nocase s /\
     Z.of_nat (length s) mod 8 <> 1 /\
     Z.of_nat (length s) mod 8 <> 3 /\
     Z.of_nat (length s) mod 8 <> 6) /\
  is_base32z random (chars "9990!") = false /\
  (forall s : list byte,
     Z.of_nat (length s) mod 8 = 1 -> is_base32z random s = false).
Proof.
  split; [|split].
  - intros s. apply is_base32z_true.
  - destruct random; vm_compute; reflexivity.
  - intros s Hlen. apply not_true_is_false. intros H.
    apply is_base32z_true in H. destruct H as (_ & H1 & _). contradiction.
Qed.

Lemma is_base32z_iff_witness :
  is_base32z true (chars "ybndrfg8e") = false /\
  is_base32z false (chars "YB") = true.
Proof.
  split.
  - apply (proj2 (proj2 (is_base32z_iff true))). reflexivity.
  - apply (proj1 (is_base32z_iff false)). split.
    + repeat (apply Forall_cons_2;
              [apply (bool_decide_eq_true_1 _); vm_compute; reflexivity|]).
      apply Forall_nil_2.
    + repeat split; discriminate.
Defined.

Lemma from_base32z_padding (ndebug random : bool) (s : list byte) (c c' : byte) :
  is_base32z random (s ++ [c]) = true ->
  in_alphabet_nocase c' ->
  let pad := padding_bits (Z.of_nat (length (s ++ [c]))) in
  value_of c / 2 ^ pad = value_of c' / 2 ^ pad ->
  from_base32z ndebug random (s ++ [c'])
  = from_base32z ndebug random (s ++ [c]).
Proof.
  intros Hvalid Hc' pad Hv.
  assert (Hvalid' : is_base32z random (s ++ [c']) = true).
  { apply is_base32z_true. apply is_base32z_true in Hvalid.
    destruct Hvalid as [Hall Hlen]. split.
    - apply Forall_app. apply Forall_app in Hall. split; [apply Hall|].
      apply Forall_cons. split; [exact Hc' | apply Forall_nil_2].
    - rewrite length_app in *. exact Hlen. }
  rewrite !from_base32z_spec by (right; assumption).
  rewrite !map_app. cbn [map].
  assert (Hk : pad = (5 * (Z.of_nat (length (map value_of s)) + 1)) mod 8).
  { unfold pad, padding_bits. rewrite length_app, length_map, Nat2Z.inj_add.
    reflexivity. }
  do 2 f_equal. symmetry. apply decode_spec_padding; cbv zeta; rewrite <- Hk.
  - apply is_base32z_true in Hvalid. destruct Hvalid as [_ Hlen].
    unfold pad, padding_bits. unfold valid_length in Hlen. zsolve.
  - exact Hv.
Qed.

(** C4: the bytes FF FF encode to "999o"; "999o", "9999", "9993" and
    "999z" all decode to FF FF; and in general two valid strings that
    differ only in the padding bits of their last symbol decode to the
    same bytes. *)
Theorem padding_bits_ignored (ndebug random : bool) :
  to_base32z ndebug [xff; xff] = Ok (chars "999o") /\
  from_base32z ndebug random (chars "999o") = Ok [xff; xff] /\
  from_base32z ndebug random (chars "9999") = Ok [xff; xff] /\
  from_base32z ndebug random (chars "9993") = Ok [xff; xff] /\
  from_base32z ndebug random (chars "999z") = Ok [xff; xff] /\
  (forall (s : list byte) (c c' : byte),
     is_base32z random (s ++ [c]) = true ->
     in_alphabet_nocase c' ->
     value_of c / 2 ^ padding_bits (Z.of_nat (length (s ++ [c])))
     = value_of c' / 2 ^ padding_bits (Z.of_nat (length (s ++ [c]))) ->
     from_base32z ndebug random (s ++ [c'])
     = from_base32z ndebug random (s ++ [c])).
Proof.
  repeat (split; [destruct ndebug, random; vm_compute; reflexivity|]).
  intros s c c'. apply from_base32z_padding.
Qed.

Lemma padding_bits_ignored_witness :
  from_base32z false true (chars "999" ++ ["3"%byte])
  = from_base32z false true (chars "999" ++ ["o"%byte]).
Proof.
  apply (proj2 (proj2 (proj2 (proj2 (proj2 (padding_bits_ignored false true)))))).
  - vm_compute. reflexivity.
  - apply (bool_decide_eq_true_1 _). vm_compute. reflexivity.
  - vm_compute. reflexivity.
Defined.

Lemma case_variant_values (s s' : list byte) :
  Forall2 case_variant s s' -> map value_of s' = map value_of s.
Proof.
  induction 1 as [|c c' s s' Hc _ IH]; [reflexivity|].
  cbn [map]. rewrite IH. f_equal.
  destruct Hc as [-> | ->]; [reflexivity | apply value_of_to_upper].
Qed.

Lemma case_variant_alphabet (s s' : list byte) :
  Forall2 case_variant s s' ->
  Forall in_alphabet_nocase s -> Forall in_alphabet_nocase s'.
Proof.
  induction 1 as [|c c' s s' Hc _ IH]; intros Hall; [apply Forall_nil_2|].
  apply Forall_cons in Hall. destruct Hall as [Hc0 Hall].
  apply Forall_cons. split; [|apply IH, Hall].
  destruct Hc as [-> | ->]; [exact Hc0 | apply in_alphabet_nocase_to_upper, Hc0].
Qed.

(** C5: if S is a valid string of lower-case symbols and S' arises
    from S by putting any of its letters in upper case, then S' is
    valid too and decodes to the same bytes as S. *)
Theorem case_insensitive (ndebug random : bool) (s s' : list byte) :
  is_base32z random s = true ->
  Forall in_alphabet s ->
  Forall2 case_variant s s' ->
  is_base32z random s' = true /\
  exists bytes,
    from_base32z ndebug random s = Ok bytes /\
    from_base32z ndebug random s' = Ok bytes.
Proof.
  intros Hvalid _ Hcase.
  assert (Hvalid' : is_base32z random s' = true).
  { apply is_base32z_true. apply is_base32z_true in Hvalid.
    destruct Hvalid as [Hall Hlen]. split.
    - eapply case_variant_alphabet; eassumption.
    - rewrite <- (Forall2_length _ _ _ Hcase). exact Hlen. }
  split; [exact Hvalid'|].
  exists (map to_char (decode_spec (map value_of s))). split.
  - apply from_base32z_spec. right. exact Hvalid.
  - rewrite from_base32z_spec by (right; exact Hvalid').
    rewrite (case_variant_values _ _ Hcase). reflexivity.
Qed.

Lemma case_insensitive_witness :
  is_base32z true (chars "PB1SA5dxrb5s6HUCCO") = true /\
  exists bytes,
    from_base32z false true (chars "pb1sa5dxrb5s6hucco") = Ok bytes /\
    from_base32z false true (chars "PB1SA5dxrb5s6HUCCO") = Ok bytes.
Proof.
  apply (case_insensitive false true).
  - vm_compute. reflexivity.
  - repeat (apply Forall_cons_2;
            [apply (bool_decide_eq_true_1 _); vm_compute; reflexivity|]).
    apply Forall_nil_2.
  - repeat (apply Forall2_cons_2;
            [first [left; reflexivity | right; vm_compute; reflexivity]|]).
    apply Forall2_nil_2.
Defined.

(** C6: for every symbol sequence that satisfies [is_base32z],
    [from_base32z] yields exactly [from_base32z_size k] bytes for the
    length k of the sequence; stated for the sequences a program can
    hold, those with 5k <= SIZE_MAX. *)
Theorem from_base32z_length (ndebug random : bool) (s : list byte) :
  is_base32z random s = true ->
  5 * Z.of_nat (length s) <= SIZE_MAX ->
  exists bytes,
    from_base32z ndebug random s = Ok bytes /\
    Z.of_nat (length bytes) = from_base32z_size (Z.of_nat (length s)).
Proof.
  intros Hvalid Hmax.
  exists (map to_char (decode_spec (map value_of s))).
  split; [apply from_base32z_spec; right; exact Hvalid|].
  rewrite length_map, length_decode_spec, length_map.
  rewrite from_base32z_size_small by lia.
  apply is_base32z_true in Hvalid. destruct Hvalid as [_ Hlen].
  unfold valid_length in Hlen.
  destruct (Z.ltb_spec ((5 * Z.of_nat (length s)) mod 8) 5); [reflexivity|].
  zsolve.
Qed.

Lemma from_base32z_length_witness :
  exists bytes,
    from_base32z false true (chars "999o") = Ok bytes /\
    Z.of_nat (length bytes) = from_base32z_size 4.
Proof.
  apply (from_base32z_length false true (chars "999o")).
  - vm_compute. reflexivity.
  - vm_compute. discriminate.
Defined.

(** C10: in a release build [from_base32z] is total on every character
    sequence: for k characters it returns floor(5k / 8) bytes, which
    are the bytes of the 5-bit values read from the inverse table;
    the table has 256 entries, so every character indexes inside it,
    and it reads 0 for every character outside the alphabet; a last
    character that leaves five to seven bits adds nothing to the
    output. *)
Theorem from_base32z_total (random : bool) (s : list byte) :
  (exists bytes,
     from_base32z true random s = Ok bytes /\
     bytes = map to_char (decode_spec (map value_of s)) /\
     Z.of_nat (length bytes) = 5 * Z.of_nat (length s) / 8) /\
  (length detail.from_b32z_lut = 256%nat /\
   forall c : byte,
     (Z.to_nat (uchar c) < length detail.from_b32z_lut)%nat /\
     (~ in_alphabet_nocase c -> value_of c = 0)) /\
  (forall c : byte,
     5 <= padding_bits (Z.of_nat (length (s ++ [c]))) ->
     from_base32z true random (s ++ [c]) = from_base32z true random s).
Proof.
  split; [|split].
  - exists (map to_char (decode_spec (map value_of s))).
    split; [apply from_base32z_spec; left; reflexivity|].
    split; [reflexivity|].
    rewrite length_map, length_decode_spec, length_map. reflexivity.
  - split; [apply from_b32z_lut_length|].
    intros c. split.
    + rewrite from_b32z_lut_length. pose proof (uchar_range c). lia.
    + apply value_of_outside.
  - intros c Hbits.
    rewrite !from_base32z_spec by (left; reflexivity).
    rewrite map_app. cbn [map]. do 2 f_equal.
    apply decode_spec_discard.
    unfold padding_bits in Hbits.
    rewrite length_app, Nat2Z.inj_add in Hbits. rewrite length_map.
    exact Hbits.
Qed.

Lemma from_base32z_total_witness :
(Z.to_nat (uchar "!") < length detail.from_b32z_lut)%nat /\
  value_of "!" = 0 /\
  from_base32z true true (chars "99" ++ ["!"%byte])
  = from_base32z true true (chars "99").
Proof.
  destruct (from_base32z_total true (chars "99")) as (_ & (_ & Hc) & Hdrop).
  destruct (Hc "!"%byte) as [Hin Hzero].
  split; [exact Hin|]. split.
  - apply Hzero. intros H. apply (bool_decide_eq_true_2 _) in H.
    vm_compute in H. discriminate H.
  - apply Hdrop. vm_compute. discriminate.
Defined.

(** * Further properties of the tables, the validator and the wrappers *)

(** X1: the inverse table built by the constructor inverts the forward
    table on every 5-bit value, for the symbol itself and for its
    upper-case form. *)
Theorem table_inverse (v : Z) :
  0 <= v < 32 ->
  uchar (detail.from_b32z (uchar (detail.to_b32z v))) = v /\
  uchar (detail.from_b32z (uchar (to_upper (detail.to_b32z v)))) = v.
Proof.
  intros Hv. split.
  - apply (value_of_symbol_of v Hv).
  - change (value_of (to_upper (symbol_of v)) = v).
    rewrite value_of_to_upper. apply value_of_symbol_of, Hv.
Qed.

Lemma table_inverse_witness :
  uchar (detail.from_b32z (uchar (detail.to_b32z 17))) = 17 /\
  uchar (detail.from_b32z (uchar (to_upper (detail.to_b32z 17)))) = 17.
Proof. apply (table_inverse 17). lia. Defined.

Lemma value_of_zero_bool (c : byte) :
  (value_of c =? 0)
  = bool_decide (c = "y"%byte) || bool_decide (c = "Y"%byte)
    || negb (bool_decide (in_alphabet_nocase c)).
Proof. destruct c; vm_compute; reflexivity. Qed.

(** X2: an entry of the inverse table is 0 exactly for 'y', for 'Y'
    and for the characters outside the alphabet; every entry is below
    32. *)
Theorem from_b32z_zero (c : byte) :
  (uchar (detail.from_b32z (uchar c)) = 0 <->
   c = "y"%byte \/ c = "Y"%byte \/ ~ in_alphabet_nocase c) /\
  0 <= uchar (detail.from_b32z (uchar c)) < 32.
Proof.
  split; [|apply value_of_range].
  change (value_of c = 0 <-> c = "y"%byte \/ c = "Y"%byte \/ ~ in_alphabet_nocase c).
  rewrite <- Z.eqb_eq, value_of_zero_bool, !orb_true_iff, negb_true_iff,
    !bool_decide_eq_true, bool_decide_eq_false.
  tauto.
Qed.

Lemma from_b32z_zero_witness :
  uchar (detail.from_b32z (uchar "!")) = 0 /\
  uchar (detail.from_b32z (uchar "Y")) = 0.
Proof.
  split.
  - apply (proj1 (from_b32z_zero "!")). right. right.
    intros H. apply (bool_decide_eq_true_2 _) in H.
    vm_compute in H. discriminate H.
  - apply (proj1 (from_b32z_zero "Y")). right. left. reflexivity.
Defined.

(** X3: the two paths of [is_base32z], the one that tests the length
    first and the one that counts while scanning, return the same
    answer on every sequence. *)
Theorem is_base32z_paths_agree (s : list byte) :
  is_base32z true s = is_base32z false s.
Proof. rewrite !is_base32z_spec. reflexivity. Qed.

(** X4: without wrap-around the result 0 of [from_base32z_size] marks
    an invalid length except for the empty string, whose decoded size
    is 0 as well. *)
Theorem from_base32z_size_zero (k : Z) :
  0 <= k -> 5 * k <= SIZE_MAX ->
  (from_base32z_size k = 0 <-> k = 0 \/ ~ valid_length k).
Proof.
  intros Hk Hmax. rewrite from_base32z_size_small by assumption.
  unfold valid_length.
  destruct (Z.ltb_spec ((5 * k) mod 8) 5); zsolve.
Qed.

Lemma from_base32z_size_zero_witness :
  from_base32z_size 11 = 0 <-> 11 = 0 \/ ~ valid_length 11.
Proof.
  apply (from_base32z_size_zero 11); [lia | vm_compute; discriminate].
Defined.

(** X5: [to_base32z] never maps two different byte sequences to the
    same string. *)
Theorem to_base32z_injective (ndebug : bool) (a b : list byte) :
  to_base32z ndebug a = to_base32z ndebug b -> a = b.
Proof.
  rewrite !to_base32z_spec. intros H. injection H as H.
  apply (f_equal (map value_of)) in H.
  rewrite !map_value_of_symbol_of in H by apply encode_spec_range.
  apply (f_equal decode_spec) in H. rewrite !decode_encode_spec in H.
  apply (f_equal (map to_char)) in H. rewrite !map_to_char_uchar in H.
  exact H.
Qed.

Lemma to_base32z_injective_witness : [x01; x02] = [x01; x02].
Proof. apply (to_base32z_injective true). reflexivity. Defined.

Lemma copy_encoder_from (ndebug : bool) (input out : list byte) :
  to_base32z_out ndebug input out
  = Ok (out ++ map symbol_of (encode_spec input)).
Proof.
  unfold to_base32z_out. apply copy_encoder_spec.
  pose proof (length_encode_spec input). zsolve.
Qed.

(** X6: the three-argument forms write after what the output already
    holds and leave that untouched: the result is the old output
    followed by what the string-returning form yields. *)
Theorem out_is_appended (ndebug random : bool) (input out : list byte) :
  (exists symbols,
     to_base32z ndebug input = Ok symbols /\
     to_base32z_out ndebug input out = Ok (out ++ symbols)) /\
  (is_base32z random input = true ->
   exists bytes,
     from_base32z ndebug random input = Ok bytes /\
     from_base32z_out ndebug random input out = Ok (out ++ bytes)).
Proof.
  split.
  - exists (map symbol_of (encode_spec input)).
    split; [apply to_base32z_spec | apply copy_encoder_from].
  - intros Hvalid.
    exists (map to_char (decode_spec (map value_of input))).
    split; [apply from_base32z_spec; right; exact Hvalid|].
    unfold from_base32z_out. rewrite Hvalid. cbn [assert mbind result_bind].
    apply decode_loop_spec.
    pose proof (length_decode_spec (map value_of input)) as Hl.
    rewrite length_map in Hl. zsolve.
Qed.

Lemma out_is_appended_witness :
  exists bytes,
    from_base32z false true (chars "999o") = Ok bytes /\
    from_base32z_out false true (chars "999o") [x01] = Ok ([x01] ++ bytes).
Proof.
  apply (proj2 (out_is_appended false true (chars "999o") [x01])).
  reflexivity.
Defined.

(** X7: every string that [to_base32z] returns passes [is_base32z],
    on both of its paths. *)
Theorem to_base32z_is_valid (ndebug random : bool) (input symbols : list byte) :
  to_base32z ndebug input = Ok symbols -> is_base32z random symbols = true.
Proof.
  rewrite to_base32z_spec. intros H. injection H as <-.
  apply is_base32z_encoding.
Qed.

Lemma to_base32z_is_valid_witness : is_base32z false (chars "999o") = true.
Proof.
  apply (to_base32z_is_valid true false [xff; xff]). reflexivity.
Defined.

(** * Composition and canonical form *)

(** X8: encoding distributes over concatenation at a multiple of five
    bytes: the encoding of a ++ b is the encoding of a followed by the
    encoding of b. *)
Theorem to_base32z_app (ndebug : bool) (a b : list byte) :
  (length a mod 5 = 0)%nat ->
  exists x y,
    to_base32z ndebug a = Ok x /\
    to_base32z ndebug b = Ok y /\
    to_base32z ndebug (a ++ b) = Ok (x ++ y).
Proof.
  intros Hlen.
  exists (map symbol_of (encode_spec a)), (map symbol_of (encode_spec b)).
  rewrite !to_base32z_spec, encode_spec_app, map_app by exact Hlen.
  repeat split.
Qed.

Lemma to_base32z_app_witness :
  exists x y,
    to_base32z true (chars "hello") = Ok x /\
    to_base32z true (chars " world") = Ok y /\
    to_base32z true (chars "hello" ++ chars " world") = Ok (x ++ y).
Proof. apply (to_base32z_app true). reflexivity. Defined.

(** X9: decoding distributes over concatenation at a multiple of
    eight symbols: if s ++ t is valid and the length of s is a
    multiple of 8, then s and t decode on their own and s ++ t decodes
    to the bytes of s followed by the bytes of t. *)
Theorem from_base32z_app (ndebug random : bool) (s t : list byte) :
  (length s mod 8 = 0)%nat ->
  is_base32z random (s ++ t) = true ->
  exists x y,
    from_base32z ndebug random s = Ok x /\
    from_base32z ndebug random t = Ok y /\
    from_base32z ndebug random (s ++ t) = Ok (x ++ y).
Proof.
  intros Hlen Hvalid.
  assert (Hz : Z.of_nat (length s) mod 8 = 0).
  { change 8 with (Z.of_nat 8). rewrite <- Nat2Z.inj_mod, Hlen. reflexivity. }
  pose proof Hvalid as Hst. apply is_base32z_true in Hst.
  destruct Hst as [Hall Hk]. apply Forall_app in Hall. destruct Hall as [Hs Ht].
  rewrite length_app, Nat2Z.inj_add in Hk. unfold valid_length in Hk.
  assert (Hvs : is_base32z random s = true).
  { apply is_base32z_true. split; [exact Hs|]. unfold valid_length. zsolve. }
  assert (Hvt : is_base32z random t = true).
  { apply is_base32z_true. split; [exact Ht|]. unfold valid_length. zsolve. }
  exists (map to_char (decode_spec (map value_of s))),
         (map to_char (decode_spec (map value_of t))).
  rewrite !from_base32z_spec by (right; assumption).
  rewrite map_app, decode_spec_app, map_app by (rewrite length_map; exact Hlen).
  repeat split.
Qed.

Lemma from_base32z_app_witness :
  exists x y,
    from_base32z false true (chars "pb1sa5dx") = Ok x /\
    from_base32z false true (chars "rb5s6hucco") = Ok y /\
    from_base32z false true (chars "pb1sa5dx" ++ chars "rb5s6hucco")
    = Ok (x ++ y).
Proof. apply (from_base32z_app false true); reflexivity. Defined.

(** X10: in a release build the bytes decoded from a sequence are
    never revised by what follows it: the decoding of s ++ t starts
    with the decoding of s, whatever the characters are. *)
Theorem from_base32z_prefix (random : bool) (s t : list byte) :
  exists x tail,
    from_base32z true random s = Ok x /\
    from_base32z true random (s ++ t) = Ok (x ++ tail).
Proof.
  destruct (decode_spec_prefix (map value_of s) (map value_of t)) as [tail H].
  exists (map to_char (decode_spec (map value_of s))), (map to_char tail).
  rewrite !from_base32z_spec by (left; reflexivity).
  rewrite map_app, H, map_app. split; reflexivity.
Qed.

(** X11: decoding and encoding again gives the lower-case form of the
    string, for every valid string whose padding bits are zero. *)
Theorem decode_encode_canonical (ndebug random : bool) (s : list byte) :
  is_base32z random s = true ->
  zero_padding (map value_of s) ->
  exists bytes,
    from_base32z ndebug random s = Ok bytes /\
    to_base32z ndebug bytes = Ok (map to_lower s).
Proof.
  intros Hvalid Hpad.
  exists (map to_char (decode_spec (map value_of s))).
  split; [apply from_base32z_spec; right; exact Hvalid|].
  apply is_base32z_true in Hvalid. destruct Hvalid as [Hall Hlen].
  rewrite to_base32z_spec, encode_decode_spec.
  - rewrite map_symbol_of_value_of by exact Hall. reflexivity.
  - apply value_of_range_all.
  - rewrite length_map. exact Hlen.
  - exact Hpad.
Qed.

Lemma decode_encode_canonical_witness :
  exists bytes,
    from_base32z false true (chars "PB1SA5DXRB5S6HUCCO") = Ok bytes /\
    to_base32z false bytes = Ok (map to_lower (chars "PB1SA5DXRB5S6HUCCO")).
Proof.
  apply (decode_encode_canonical false true).
  - reflexivity.
  - vm_compute. reflexivity.
Defined.

(** X12: the padding bits of the last symbol that [to_base32z] writes
    are zero. *)
Theorem to_base32z_zero_padding (ndebug : bool) (input symbols : list byte) :
  to_base32z ndebug input = Ok symbols ->
  zero_padding (map value_of symbols).
Proof.
  rewrite to_base32z_spec. intros H. injection H as <-.
  rewrite map_value_of_symbol_of by apply encode_spec_range.
  apply encode_spec_zero_padding.
Qed.

Lemma to_base32z_zero_padding_witness :
  zero_padding (map value_of (chars "999o")).
Proof.
  apply (to_base32z_zero_padding true [xff; xff]). reflexivity.
Defined.

(** X13: the lengths that [is_base32z] accepts are exactly the lengths
    of the strings that [to_base32z] returns: a string of k symbols is
    an encoding of some byte sequence's length exactly when k modulo 8
    is none of 1, 3 and 6. *)
Theorem encoded_lengths (ndebug : bool) (k : nat) :
  (exists input symbols,
     to_base32z ndebug input = Ok symbols /\ length symbols = k)
  <-> valid_length (Z.of_nat k).
Proof.
  split.
  - intros (input & symbols & H & <-). rewrite to_base32z_spec in H.
    injection H as <-. rewrite length_map, length_encode_spec.
    unfold valid_length. zsolve.
  - intros Hk.
    exists (replicate (Z.to_nat (5 * Z.of_nat k / 8)) x00).
    eexists. split; [apply to_base32z_spec|].
    apply Nat2Z.inj. rewrite length_map, length_encode_spec, length_replicate.
    rewrite Z2Nat.id by zsolve. unfold valid_length in Hk. zsolve.
Qed.

Lemma encoded_lengths_witness :
  exists input symbols,
    to_base32z true input = Ok symbols /\ length symbols = 4%nat.
Proof.
  apply (proj2 (encoded_lengths true 4)).
  unfold valid_length. repeat split; discriminate.
Defined.

(** * Invariants, decoding in place, literals *)

Lemma encoder_invariant_bits (e : base32z_encoder.t) :
  encoder_invariant e ->
  base32z_encoder.operator_ne e (base32z_encoder.make []) = true ->
  5 <= base32z_encoder.bits e <= 12.
Proof.
  destruct e as [it bits r]. unfold encoder_invariant.
  cbn [base32z_encoder.r base32z_encoder.bits base32z_encoder._it].
  intros [_ Hbits] Hne.
  destruct it as [|b it]; [|exact Hbits].
  unfold base32z_encoder.operator_ne, base32z_encoder.operator_eq in Hne.
  cbn in Hne. destruct Hbits as [-> | ->]; [discriminate Hne | lia].
Qed.

(** X14: the encoder holds between 5 and 12 bits in its register until
    it reaches the end, as its comment says: the invariant holds for a
    fresh encoder, and from a state that has it and is not the end the
    assertion of [operator++] passes, the symbol is read from inside
    the 32-entry table, and the next state has the invariant again. *)
Theorem encoder_keeps_invariant (ndebug : bool) (input : list byte) :
  encoder_invariant (base32z_encoder.make input) /\
  forall e : base32z_encoder.t,
    encoder_invariant e ->
    base32z_encoder.operator_ne e (base32z_encoder.make []) = true ->
    5 <= base32z_encoder.bits e <= 12 /\
    0 <= base32z_encoder.r e ≫ (base32z_encoder.bits e - 5) < 32 /\
    exists e',
      base32z_encoder.operator_inc ndebug e = Ok e' /\ encoder_invariant e'.
Proof.
  split; [apply encoder_invariant_make|].
  intros e Hinv Hne.
  pose proof (encoder_invariant_bits e Hinv Hne) as Hbits.
  split; [exact Hbits|]. split.
  - apply encoder_invariant_index; [exact Hinv | lia].
  - apply encoder_invariant_inc; assumption.
Qed.

Lemma encoder_keeps_invariant_witness :
  exists e',
    base32z_encoder.operator_inc false (base32z_encoder.make [xff; xff]) = Ok e' /\
    encoder_invariant e'.
Proof.
  apply (proj2 (encoder_keeps_invariant false [xff; xff])).
  - apply (proj1 (encoder_keeps_invariant false [xff; xff])).
  - reflexivity.
Defined.

(** X15: the decoder holds between 8 and 12 bits in its register until
    it reaches the end, as its comment says, and fewer than 8 at the
    end; after j bytes the bits written and held are exactly those of
    the symbols loaded; each byte leaves the register whole. *)
Theorem decoder_keeps_invariant (input : list byte) :
  decoder_invariant (length input) (base32z_decoder.make input) 0 /\
  forall (d : base32z_decoder.t) (j : Z),
    decoder_invariant (length input) d j ->
    base32z_decoder._it d <> [] ->
    0 <= base32z_decoder.in_ d ≫ (base32z_decoder.bits d - 8) < 256 /\
    decoder_invariant (length input) (base32z_decoder.operator_inc d) (j + 1).
Proof.
  split; [apply decoder_invariant_make|].
  intros d j Hinv Hit. split.
  - eapply decoder_invariant_byte; eassumption.
  - apply decoder_invariant_inc; assumption.
Qed.

Lemma decoder_keeps_invariant_witness :
  decoder_invariant 4
    (base32z_decoder.operator_inc (base32z_decoder.make (chars "999o"))) 1.
Proof.
  apply (proj2 (decoder_keeps_invariant (chars "999o")) _ 0).
  - apply (proj1 (decoder_keeps_invariant (chars "999o"))).
  - discriminate.
Defined.

Lemma pointer_make_bounds (mem : list byte) (begin end_ : nat) :
  (begin <= end_)%nat ->
  let d := base32z_decoder_ptr.make mem begin end_ in
  base32z_decoder_ptr._end d = end_ /\
  (begin <= base32z_decoder_ptr._it d <= end_)%nat.
Proof.
  intros Hb. cbv zeta.
  unfold base32z_decoder_ptr.make, base32z_decoder_ptr.load_byte,
    base32z_decoder_ptr.load_in.
  fields.
  repeat (case_bool_decide || destruct (_ <? 8)); fields; lia.
Qed.

(** X16: decoding in place.  For three pointers into one buffer with
    [out] no later than [begin], [from_base32z] leaves the decoded
    bytes of the range [begin, end) in the buffer from [out] on,
    changes nothing else, and returns the position after the last
    byte written: no write reaches a symbol before it is read. *)
Theorem from_base32z_in_place (ndebug : bool) (mem : list byte)
    (begin end_ out : nat) :
  (begin <= end_ <= length mem)%nat ->
  (out <= begin)%nat ->
  ndebug = true \/ is_base32z true (range mem begin end_) = true ->
  exists bytes,
    from_base32z ndebug true (range mem begin end_) = Ok bytes /\
    from_base32z_ptr ndebug mem begin end_ out
    = Ok (take out mem ++ bytes ++ drop (out + length bytes) mem,
          (out + length bytes)%nat).
Proof.
  intros [Hb He] Hout Hvalid.
  set (input := range mem begin end_) in *.
  assert (Hlen : length input = (end_ - begin)%nat)
    by (apply range_length; exact He).
  exists (map to_char (decode_spec (map value_of input))).
  split; [apply from_base32z_spec; exact Hvalid|].
  unfold from_base32z_ptr. fold input.
  assert (assert ndebug (is_base32z true input) = Ok tt) as ->.
  { unfold assert. destruct Hvalid as [-> | ->]; [|reflexivity].
    destruct (is_base32z true input); reflexivity. }
  cbn [mbind result_bind].
  destruct (pointer_make_bounds mem begin end_ Hb) as [Hend Hit].
  cbv zeta in Hend, Hit.
  pose proof (decode_loop_ptr_sim begin end_ out Hb Hout (S (end_ - begin))
                mem (base32z_decoder_ptr.make mem begin end_) 0
                (map to_char (decode_spec (map value_of input)))
                He Hend Hit) as Hsim.
  rewrite !Nat.add_0_r in Hsim. apply Hsim.
  - rewrite decoder_of_make by assumption. fold input. rewrite <- Hlen.
    apply decoder_invariant_make.
  - rewrite decoder_of_make by assumption. fold input.
    rewrite decode_loop_spec; [reflexivity|].
    pose proof (length_decode_spec (map value_of input)) as Hl.
    rewrite length_map, Hlen in Hl. zsolve.
Qed.

Lemma from_base32z_in_place_witness :
  exists bytes,
    from_base32z false true (range (chars "999o") 0 4) = Ok bytes /\
    from_base32z_ptr false (chars "999o") 0 4 0
    = Ok (take 0 (chars "999o") ++ bytes ++ drop (0 + length bytes) (chars "999o"),
          (0 + length bytes)%nat).
Proof.
  apply (from_base32z_in_place false (chars "999o") 0 4 0).
  - vm_compute. split; repeat constructor.
  - lia.
  - right. reflexivity.
Defined.

(** X17: the literal of a valid string holds the decoded bytes
    followed by a NUL, nothing is written outside its array, and
    [operator""_b32z] yields exactly the bytes that [from_base32z]
    returns; the literal of an invalid string has [valid] unset, an
    array of zeros and is rejected by the static assertion. *)
Theorem b32z_literal_spec (ndebug : bool) (str : list byte) :
  5 * Z.of_nat (length str) <= SIZE_MAX ->
  (is_base32z true str = true ->
   exists bytes lit,
     from_base32z ndebug true str = Ok bytes /\
     b32z_literal_make ndebug str = Ok (Some lit) /\
     valid lit = true /\
     decoded lit = bytes ++ [x00] /\
     operator_b32z lit = Some bytes) /\
  (is_base32z true str = false ->
   exists lit,
     b32z_literal_make ndebug str = Ok (Some lit) /\
     valid lit = false /\
     Forall (fun c => c = x00) (decoded lit) /\
     view lit = [] /\
     operator_b32z lit = None).
Proof.
  intros Hmax. split; intros Hvalid.
  - set (bytes := map to_char (decode_spec (map value_of str))).
    exists bytes, (mk_b32z_literal (bytes ++ [x00]) true).
    split; [apply from_base32z_spec; right; exact Hvalid|].
    unfold b32z_literal_make. rewrite Hvalid.
    rewrite from_base32z_out_valid by exact Hvalid. fold bytes.
    cbn [mbind result_bind].
    rewrite literal_size by assumption.
    assert (Hlen : length bytes = length (decode_spec (map value_of str)))
      by (unfold bytes; apply length_map).
    rewrite <- Hlen.
    replace (length bytes <=? S (length bytes))%nat with true
      by (symmetry; apply Nat.leb_le; lia).
    replace (S (length bytes) - length bytes)%nat with 1%nat by lia.
    repeat split.
    unfold operator_b32z, view. cbn [valid decoded]. f_equal.
    rewrite length_app. cbn [length].
    replace (length bytes + 1 - 1)%nat with (length bytes) by lia.
    apply take_app_length.
  - unfold b32z_literal_make. rewrite Hvalid. cbn [mbind result_bind length].
    eexists. split; [reflexivity|]. cbn [valid decoded app].
    repeat split.
    apply Forall_replicate. reflexivity.
Qed.

Lemma b32z_literal_spec_witness :
  exists bytes lit,
    from_base32z false true (chars "999o") = Ok bytes /\
    b32z_literal_make false (chars "999o") = Ok (Some lit) /\
    valid lit = true /\
    decoded lit = bytes ++ [x00] /\
    operator_b32z lit = Some bytes.
Proof.
  apply (proj1 (b32z_literal_spec false (chars "999o") ltac:(vm_compute; discriminate))).
  reflexivity.
Defined.
